(** * tx-template: anchors, glossary matching and exports

    A shallow embedding of [A_gen_literal_po.py] and
    [B_gen_literal_translation.py].  Python strings are sequences of Unicode
    code points, so a string is a list of code points; the external
    collaborators (the [antx] alignment primitive, the operating system's
    random source behind [uuid4], [text_formatting.format_fr]) are section
    variables of the definitions that call them. *)

From stdpp Require Import base numbers list strings gmap.

Local Open Scope N_scope.

(** ** Python [str] *)

Module PyStr.

Abbreviation char := N (only parsing).
Abbreviation str := (list char) (only parsing).

(** A string literal of the source, for the ASCII range. *)
Definition py (s : string) : str := Ascii.N_of_ascii <$> String.list_ascii_of_string s.
Arguments py s%_string.

Definition NL : char := 10.      (* '\n' *)
Definition TAB : char := 9.      (* '\t' *)
Definition SP : char := 32.      (* ' ' *)

(** [str.isspace] on one code point, the table of [_PyUnicode_IsWhitespace]. *)
Definition isspace (c : char) : bool :=
  ((9 <=? c) && (c <=? 13)) || ((28 <=? c) && (c <=? 32))
  || (c =? 133) || (c =? 160) || (c =? 5760)
  || ((8192 <=? c) && (c <=? 8202))
  || (c =? 8232) || (c =? 8233) || (c =? 8239) || (c =? 8287) || (c =? 12288).

Fixpoint lstrip (s : str) : str :=
  match s with
  | [] => []
  | c :: s' => if isspace c then lstrip s' else s
  end.

Definition rstrip (s : str) : str := reverse (lstrip (reverse s)).

(** [s.strip()] *)
Definition strip (s : str) : str := rstrip (lstrip s).

(** A string is clean at its start when its first character is not white
    space, and at its end likewise: [strip] leaves such a string alone. *)
Definition starts_clean (s : str) : Prop :=
  match s with [] => False | c :: _ => isspace c = false end.
Definition ends_clean (s : str) : Prop := starts_clean (reverse s).

(** [s.count(c)] for a one-character [c]. *)
Fixpoint count (c : char) (s : str) : nat :=
  match s with
  | [] => 0%nat
  | x :: s' => if decide (x = c) then S (count c s') else count c s'
  end.

(** Python slice bounds: a negative bound counts from the end, and both
    ends are clipped to the string. *)
Definition clip (len i : Z) : Z :=
  if (i <? 0)%Z then Z.max 0 (len + i) else Z.min i len.

Definition zlen (s : str) : Z := Z.of_nat (length s).

(** [s[:i]] and [s[i:]] *)
Definition slice_to (s : str) (i : Z) : str := take (Z.to_nat (clip (zlen s) i)) s.
Definition slice_from (s : str) (i : Z) : str := drop (Z.to_nat (clip (zlen s) i)) s.

Fixpoint index_from (c : char) (s : str) (i : Z) : Z :=
  match s with
  | [] => (-1)%Z
  | x :: s' => if decide (x = c) then i else index_from c s' (i + 1)%Z
  end.

(** [s.find(c, start)] for a one-character [c]: the lowest index at or after
    [start], or -1. *)
Definition find (s : str) (c : char) (start : Z) : Z :=
  let b := clip (zlen s) start in
  index_from c (drop (Z.to_nat b) s) b.

(** [s.rfind(c)] for a one-character [c]: the highest index, or -1. *)
Definition rfind (s : str) (c : char) : Z :=
  let i := index_from c (reverse s) 0 in
  if decide (i = -1)%Z then (-1)%Z else (zlen s - 1 - i)%Z.

(** [s.startswith(p)] *)
Fixpoint startswith (s p : str) {struct p} : bool :=
  match p with
  | [] => true
  | a :: p' =>
      match s with
      | [] => false
      | b :: s' => bool_decide (a = b) && startswith s' p'
      end
  end.

(** [s.endswith(p)] *)
Definition endswith (s p : str) : bool := startswith (reverse s) (reverse p).

(** [sub in s] *)
Fixpoint contains (sub s : str) : bool :=
  startswith s sub ||
  match s with
  | [] => false
  | _ :: s' => contains sub s'
  end.

(** [s.replace(old, new)]: occurrences are found left to right and do not
    overlap.  [skip] counts the characters of an occurrence still to drop. *)
Fixpoint replace_from (old new s : str) (skip : nat) : str :=
  match s with
  | [] => []
  | c :: s' =>
      match skip with
      | S k => replace_from old new s' k
      | O => if startswith s old
             then new ++ replace_from old new s' (length old - 1)
             else c :: replace_from old new s' 0
      end
  end.

Definition replace (s old new : str) : str :=
  match old with
  | [] => new ++ mjoin ((λ c, c :: new) <$> s)
  | _ :: _ => replace_from old new s 0
  end.
Global Arguments replace : simpl never.

(** [s.split(sep)] for a one-character [sep]. *)
Fixpoint split (sep : char) (s : str) : list str :=
  match s with
  | [] => [[]]
  | c :: s' =>
      if decide (c = sep) then [] :: split sep s'
      else match split sep s' with
           | [] => [[c]]
           | p :: ps => (c :: p) :: ps
           end
  end.

(** [sep.join(parts)] *)
Fixpoint join (sep : str) (parts : list str) : str :=
  match parts with
  | [] => []
  | [p] => p
  | p :: ps => p ++ sep ++ join sep ps
  end.

End PyStr.
Import PyStr.

(** ** [uuid.uuid4().hex] *)

Module Uuid.

Definition hexdigit (d : N) : char := if d <? 10 then 48 + d else 87 + d.

(** ['%032x' % n] for [n < 2^128]. *)
Definition hex32 (n : N) : str :=
  (λ i, hexdigit (N.land (N.shiftr n (4 * N.of_nat (31 - i))) 15)) <$> seq 0 32.

(** [UUID(bytes=os.urandom(16), version=4).int]: 128 random bits with the
    variant and version fields overwritten. *)
Definition uuid4_int (r : N) : N :=
  let i := r mod 2 ^ 128 in
  let i := N.ldiff i (N.shiftl 0xc000 48) in
  let i := N.lor i (N.shiftl 0x8000 48) in
  let i := N.ldiff i (N.shiftl 0xf000 64) in
  N.lor i (N.shiftl 4 76).

Definition is_hex (c : char) : bool :=
  ((48 <=? c) && (c <=? 57)) || ((97 <=? c) && (c <=? 102)).

(** Two draws agree on the bits [uuid4_int] does not overwrite: all of the
    low 128 but the variant (62, 63) and the version (76 to 79). *)
Definition same_random_bits (r r' : N) : Prop :=
  ∀ b, b < 128 → ¬ (62 ≤ b ≤ 63) → ¬ (76 ≤ b ≤ 79) → N.testbit r b = N.testbit r' b.

End Uuid.

(** ** A small state monad for the random source

    The state is the number of 16-byte draws taken so far. *)

Definition Gen (A : Type) : Type := nat → A * nat.

Global Instance gen_ret : MRet Gen := λ A a n, (a, n).
Global Instance gen_bind : MBind Gen := λ A B k m n, let (a, n') := m n in k a n'.

(** ** [polib]: a PO file is the ordered list of its entries

    The reader and writer of the PO format are external; a persisted file
    is represented by the record list it holds. *)

Module Polib.

Record POEntry := {
  msgid : str;
  msgstr : str;
  msgctxt : option str;
  comment : option str;
  tcomment : option str
}.

Abbreviation POFile := (list POEntry) (only parsing).

End Polib.
Import Polib.

(** [f'{b}'] for a context, which may be [None]. *)
Definition format_ctxt (b : option str) : str := default (py "None") b.

Definition EM : char := 8212.        (* the anchor delimiter, U+2014 *)
Definition OGHAM : char := 5760.     (* U+1680, the tokenizer's in-word space *)
Definition OPENBOX : char := 9251.   (* U+2423, affixed-particle marker *)
Definition TSEK : char := 3851.      (* U+0F0B *)

(** ** A_gen_literal_po.py *)

Module Transfer.
Section Transfer.

(** [antx.transfer(source, patterns, target, output)] *)
Variable transfer : str → list (str * str) → str → str → str.
(** The k-th 16 bytes read from [os.urandom], as an integer. *)
Variable urandom : nat → N.

Definition get_unique_id : Gen str :=
  λ n, (Uuid.hex32 (Uuid.uuid4_int (urandom n)), S n).

(** The test of [add_missing_uuids] on one line, and how many lines of a
    list fail it (as many identifiers are drawn for the list). *)
Definition anchored (l0 : str) : bool := endswith (strip l0) [EM].
Definition missing (lines : list str) : nat :=
  length (filter (λ l, anchored l = false) lines).

(** What [add_missing_uuids] makes of one line: an anchored line is kept
    as it is, any other is trimmed and given an identifier of hexadecimal
    digits between two delimiters. *)
Definition assigned (l0 l' : str) : Prop :=
  if anchored l0 then l' = l0
  else ∃ id, Forall (λ c, Uuid.is_hex c = true) id ∧ l' = strip l0 ++ [EM] ++ id ++ [EM].

(** The lines from which the loop of [generate_entries] gets one pair: the
    trimmed line has no delimiter, or two, or four with the last one at
    its end. *)
Definition parsable (l0 : str) : Prop :=
  let k := count EM (strip l0) in
  k = 0%nat ∨ k = 2%nat ∨ (k = 4%nat ∧ anchored l0 = true).

(** The loop of [add_missing_uuids] over [enumerate(lines)]. *)
Fixpoint add_missing_uuids_loop (lines : list str) : Gen (list str) :=
  match lines with
  | [] => mret []
  | l0 :: rest =>
      let l := strip l0 in
      if negb (endswith l [EM]) then
        id ← get_unique_id;
        rest' ← add_missing_uuids_loop rest;
        mret ((l ++ [EM] ++ id ++ [EM]) :: rest')
      else
        rest' ← add_missing_uuids_loop rest;
        mret (l0 :: rest')
  end.

Definition add_missing_uuids (dump : str) : Gen str :=
  lines ← add_missing_uuids_loop (split NL (strip dump));
  mret (join [NL] lines).

Definition remove_extra_uuid (line : str) : str :=
  if decide (2 < count EM line)%nat then
    let idx1 := find line EM 0 in
    let idx2 := find line EM (idx1 + 1) in
    strip (slice_to line idx1 ++ slice_from line (idx2 + 1))
  else line.

Definition uuid_pattern : list (str * str) :=
  [(py "uuid", [40; EM; 46; 43; 63; EM; 41])].     (* '(—.+?—)' *)

(** The list [po_entries] built by [extract_entries]. *)
Definition po_entries (po_file : POFile) : list (str * option str) :=
  (λ p, (replace (replace (msgid p) [SP] []) [OGHAM] [SP], msgctxt p)) <$> po_file.

Definition extract_entries (dump : str) (po_file : POFile) : str :=
  let po_dump :=
    join [NL] ((λ '(a, b), a ++ ([EM] ++ format_ctxt b ++ [EM])) <$> po_entries po_file) in
  transfer po_dump uuid_pattern dump (py "txt").

(** The body of the loop of [generate_entries]; the unpacking of the split
    raises unless it has exactly two parts. *)
Definition entry_of_line (line : str) : option (str * str) :=
  let line := strip line in
  let line := remove_extra_uuid line in
  match split EM (slice_to line (-1)) with
  | [txt; ctxt] => Some (txt, ctxt)
  | _ => None
  end.

(** [po_file] is [Some] of the persisted entries when [po_file.is_file()]. *)
Definition generate_entries (dump : str) (po_file : option POFile)
  : Gen (option (list (str * str))) :=
  let dump := match po_file with
              | Some f => extract_entries dump f
              | None => dump
              end in
  updated ← add_missing_uuids dump;
  mret (mapM entry_of_line (split NL (strip updated))).

End Transfer.
End Transfer.

(** Stand-ins for the external collaborators, to run the definitions: an
    alignment primitive that returns the new text unmarked, and a random
    source that always reads zero bytes. *)
Definition transfer_unmarked : str → list (str * str) → str → str → str :=
  λ _ _ target _, target.
Definition zero_source : nat → N := λ _, 0.

(** The document handed to [add_missing_uuids] by [generate_entries]. *)
Definition resync_input (transfer : str → list (str * str) → str → str → str)
    (dump : str) (po_file : option POFile) : str :=
  match po_file with
  | Some f => Transfer.extract_entries transfer dump f
  | None => dump
  end.

Module Glossary.

(** A value of [Glossary.entries]: [[(word, num), entry[1]]]. *)
Definition value : Type := (str * str) * list (str * list str).

(** The dict [self.entries] as its items in insertion order; keys are
    unique.  The loop [for word in self.entries] reads [self.entries[word]],
    the value of the item it is at. *)
Abbreviation dict := (list (str * value)) (only parsing).

Definition left_anchored (segment word : str) : bool := startswith segment (word ++ [SP]).
Definition right_anchored (segment word : str) : bool := endswith segment ([SP] ++ word).
Definition interior (segment word : str) : bool := contains ([SP] ++ word ++ [SP]) segment.

Fixpoint _find_matches (entries : dict) (segment : str) : list value :=
  match entries with
  | [] => []
  | (word, v) :: rest =>
      if left_anchored segment word then v :: _find_matches rest segment
      else if right_anchored segment word then v :: _find_matches rest segment
      else if interior segment word then v :: _find_matches rest segment
      else _find_matches rest segment
  end.

(** The three tests of [_find_matches] taken together, and how many of
    them hold. *)
Definition matches (segment word : str) : bool :=
  left_anchored segment word || right_anchored segment word || interior segment word.
Definition satisfied (segment word : str) : nat :=
  (Nat.b2n (left_anchored segment word) + Nat.b2n (right_anchored segment word)
   + Nat.b2n (interior segment word))%nat.

(** The items of the dict whose value [_find_matches] appends. *)
Definition matched (entries : dict) (segment : str) : dict :=
  filter (λ kv, matches segment kv.1 = true) entries.

(** The reading in which each test is an [if] of its own, appending once
    per test that holds. *)
Fixpoint find_matches_independent (entries : dict) (segment : str) : list value :=
  match entries with
  | [] => []
  | (word, v) :: rest =>
      (if left_anchored segment word then [v] else [])
      ++ (if right_anchored segment word then [v] else [])
      ++ (if interior segment word then [v] else [])
      ++ find_matches_independent rest segment
  end.

Definition normalize (segment : str) : str :=
  replace (replace (replace segment [OPENBOX] [SP]) [TSEK; SP] [SP]) [OGHAM] [SP].

Definition find_entries (entries : dict) (segment : str) : list value :=
  _find_matches entries (normalize segment).

End Glossary.

(** The class [Po] of A_gen_literal_po.py: the state a unit is added to is
    the list of entries of [self.file]. *)
Module PoA.

(** [Po._create_entry]; [msgstr] is [None] when the caller leaves the
    keyword at its default, the empty string. *)
Definition _create_entry (file : POFile) (msgid : str) (msgstr : option str)
    (msgctxt comment tcomment : option str) : POFile :=
  let entry := {| msgid := msgid; msgstr := default [] msgstr; msgctxt := msgctxt;
                  comment := comment; tcomment := tcomment |} in
  file ++ [entry].

End PoA.

(** ** B_gen_literal_translation.py *)

(** The files [write_txt] reads and writes: the content of each path, and
    the paths written so far, in order. *)
Module FS.

(** A path is a folder and a file name. *)
Abbreviation path := (str * str)%type (only parsing).

Record fs := { files : gmap path str; written : list path }.

Definition write_text (p : path) (data : str) (s : fs) : fs :=
  {| files := <[p := data]> (files s); written := written s ++ [p] |}.

(** [p.read_text()]; [None] when [p.is_file()] is false. *)
Definition read_text (p : path) (s : fs) : option str := files s !! p.

Definition DOT : char := 46.

(** [PurePath.stem] of a file name: the name without its suffix, which
    starts at the last dot unless that dot opens or ends the name. *)
Definition stem (name : str) : str :=
  let i := rfind name DOT in
  if decide (0 < i < zlen name - 1)%Z then slice_to name i else name.

End FS.
Import FS.

(** The class [Po] of B_gen_literal_translation.py. *)
Module PoB.
Section PoB.

Variable transfer : str → list (str * str) → str → str → str.
Variable format_fr : str → str.

Definition folder : str := py "literal/translation".
Definition copy_folder : str := py "communicative/paragraphs".

(** [self.infile] is read only through [.parent] and [.stem]. *)
Record Po := { parent : str; stem : str; file : POFile }.

(** The paths [write_txt] writes to. *)
Definition bitext_path (self : Po) : path := (parent self, stem self ++ py ".txt").
Definition translation_path (self : Po) : path :=
  (parent self, stem self ++ py "_only.txt").
Definition pars_path (self : Po) : path := (copy_folder, stem self ++ py ".txt").

Definition _format_fields (file : POFile) : POFile :=
  (λ e, {| msgid := msgid e; msgstr := format_fr (msgstr e); msgctxt := msgctxt e;
           comment := comment e; tcomment := tcomment e |}) <$> file.

(** The list [entries] of [format_entries]. *)
Definition entries_of (file : POFile) : list (str * str) :=
  (λ entry,
     let text := msgid entry in
     let text := replace (replace (replace text [SP] []) [OPENBOX] []) [OGHAM] [SP] in
     let text := replace text [NL] [SP] in
     (text, msgstr entry)) <$> file.

Definition format_entries (file : POFile) : str * str * str :=
  let entries := entries_of file in
  (join [NL] ((λ e, join [NL] [e.1; [TAB] ++ e.2]) <$> entries),
   join [NL] ((λ e, strip e.2) <$> entries),
   join [NL] ((λ e, join [NL] [e.2; [TAB] ++ e.1]) <$> entries)).

Definition pars_pattern : list (str * str) :=
  [(py "pars", [40; NL; NL; NL; 41])].       (* "(\n\n\n)" *)

Definition _update_pars (source target : str) : str :=
  let updated := transfer source pars_pattern target (py "txt") in
  replace updated [NL; NL; NL; NL] [NL; NL; NL].

(** [Po.__init__], given the entries [polib.pofile] loads from [infile]. *)
Definition init (infile_parent infile_stem : str) (loaded : POFile) : Po :=
  {| parent := infile_parent; stem := infile_stem; file := _format_fields loaded |}.

(** The text of a unit in the exports. *)
Definition export_text (entry : POEntry) : str :=
  replace (replace (replace (replace (msgid entry) [SP] []) [OPENBOX] []) [OGHAM] [SP])
    [NL] [SP].

Definition write_txt (self : Po) (s : fs) : fs :=
  let '(orig_trans, trans, pars_trans) := format_entries (file self) in
  let bitext := bitext_path self in
  let s := write_text bitext orig_trans s in
  let translation := translation_path self in
  let s := write_text translation trans s in
  let pars := pars_path self in
  match read_text pars s with
  | None => write_text pars pars_trans s
  | Some pars_old =>
      if decide (replace pars_old [NL; NL; NL] [NL] ≠ orig_trans) then
        let updated := _update_pars pars_old orig_trans in
        write_text pars updated s
      else s
  end.

End PoB.
End PoB.

(** ** The regular expressions of the source

    The four patterns are an opening character, a lazy run of characters
    other than newline, and a closing character ([<.*?>], [\[.*?\]],
    [\[.+?\]]), and a space between two characters of a class. *)

Module Regex.

(** The lazy [.*?c] at the head of [s]: what comes before the first [c] and
    what comes after it; no match when a newline comes first. *)
Fixpoint lazy_until (c : char) (s : str) : option (str * str) :=
  match s with
  | [] => None
  | x :: s' =>
      if decide (x = c) then Some ([], s')
      else if decide (x = NL) then None
      else match lazy_until c s' with
           | Some (inside, after) => Some (x :: inside, after)
           | None => None
           end
  end.

(** The lazy [.+?c]: one character other than newline, then as above. *)
Definition lazy_plus_until (c : char) (s : str) : option (str * str) :=
  match s with
  | [] => None
  | x :: s' =>
      if decide (x = NL) then None
      else match lazy_until c s' with
           | Some (inside, after) => Some (x :: inside, after)
           | None => None
           end
  end.

(** A body gives back the two sides of the closing character. *)
Definition body_sound (body : char → str → option (str * str)) : Prop :=
  ∀ c s inside after, body c s = Some (inside, after) → s = inside ++ c :: after.

Inductive piece := Text (s : str) | Match (s : str).

Definition piece_str (p : piece) : str :=
  match p with Text s => s | Match s => s end.

(** The matches of [o body c] in [s], leftmost first and not overlapping,
    with the text between them; [body] is one of the two functions above.
    [cur] is the text since the last match, [skip] the characters of a match
    still to pass. *)
Fixpoint scan_from (o c : char) (body : char → str → option (str * str))
    (s : str) (cur : str) (skip : nat) : list piece :=
  match s with
  | [] => [Text cur]
  | x :: s' =>
      match skip with
      | S k => scan_from o c body s' cur k
      | O =>
          if decide (x = o) then
            match body c s' with
            | Some (inside, _) =>
                Text cur :: Match (o :: inside ++ [c])
                  :: scan_from o c body s' [] (S (length inside))
            | None => scan_from o c body s' (cur ++ [x]) 0
            end
          else scan_from o c body s' (cur ++ [x]) 0
      end
  end.

Definition scan (o c : char) (body : char → str → option (str * str)) (s : str)
  : list piece := scan_from o c body s [] 0.

(** [re.split] with the whole pattern in one group: texts and matches in
    turn. *)
Definition re_split (o c : char) (body : char → str → option (str * str)) (s : str)
  : list str := piece_str <$> scan o c body s.

(** [re.sub(pattern, '', s)] *)
Definition re_delete (o c : char) (body : char → str → option (str * str)) (s : str)
  : str :=
  mjoin ((λ p, match p with Text t => t | Match _ => [] end) <$> scan o c body s).

End Regex.

Definition SHAD : char := 3853.        (* U+0F0D *)
Definition UNDERSCORE : char := 95.
Definition LT : char := 60.            (* '<' *)
Definition GT : char := 62.            (* '>' *)
Definition LBRACKET : char := 91.      (* '[' *)
Definition RBRACKET : char := 93.      (* ']' *)
Definition BACKSLASH : char := 92.
Definition COLON : char := 58.
Definition HYPHEN : char := 45.

(** ** [segment_in_words] *)

Module Segment.
Section Segment.

(** [Text(string).tokenize_words_raw_text] of botok. *)
Variable tokenize : str → str.

(** The class [[^།་_]]. *)
Definition plain (c : char) : bool :=
  negb (bool_decide (c = SHAD) || bool_decide (c = TSEK) || bool_decide (c = UNDERSCORE)).

(** [re.sub('([^།་_]) ([^_།་])', '\g<1>␣\g<2>', s)]: a match takes its three
    characters, and the search goes on after them. *)
Fixpoint mark_affixed (s : str) : str :=
  match s with
  | [] => []
  | c1 :: t =>
      match t with
      | sp :: c2 :: rest =>
          if plain c1 && bool_decide (sp = SP) && plain c2
          then c1 :: OPENBOX :: c2 :: mark_affixed rest
          else c1 :: mark_affixed t
      | _ => c1 :: mark_affixed t
      end
  end.

Definition segment_in_words (string : str) : str :=
  let tokenized := tokenize string in
  let tokenized := mark_affixed tokenized in
  replace tokenized [UNDERSCORE] [OGHAM].

End Segment.
End Segment.

(** ** The rest of [Transfer] *)

(** The old-version document of [extract_entries], one synthetic line per
    unit. *)
Definition po_dump (po_file : POFile) : str :=
  join [NL] ((λ '(a, b), a ++ ([EM] ++ format_ctxt b ++ [EM])) <$> Transfer.po_entries po_file).

(** ** The rest of [Glossary] *)

Module GlossaryIndex.
Section GlossaryIndex.

Variable tokenize : str → str.

(** [entries[k] = v] on a dict: the value of an existing key is replaced in
    place, a new key goes to the end. *)
Fixpoint dict_set (d : Glossary.dict) (k : str) (v : Glossary.value) : Glossary.dict :=
  match d with
  | [] => [(k, v)]
  | (k', v') :: d' =>
      if decide (k' = k) then (k, v) :: d' else (k', v') :: dict_set d' k v
  end.

(** [entries[k]], [None] for a missing key. *)
Fixpoint dict_get (d : Glossary.dict) (k : str) : option Glossary.value :=
  match d with
  | [] => None
  | (k', v') :: d' => if decide (k' = k) then Some v' else dict_get d' k
  end.

(** The headword without its final shad. *)
Definition headword (word : str) : str :=
  if endswith word [SHAD] then slice_to word (-1) else word.

(** The key under which a headword is filed. *)
Definition index_key (word : str) : str :=
  replace (replace (Segment.segment_in_words tokenize word) [OPENBOX] [SP]) [TSEK; SP] [SP].

(** The loop of [__parse_json] over [glos.items()]: an item is
    [(num, [word, definitions])]. *)
Definition build_entries (glos : list (str * (str * list (str * list str))))
  : Glossary.dict :=
  foldl (λ entries '(num, (word0, defs)),
           let word := headword word0 in
           dict_set entries (index_key word) ((word, num), defs))
        [] glos.

(** [Glossary.__parse_json]: [cache] is the content of the pickle file when
    there is one, [glos] the parsed glossary file when there is one (reading
    it raises otherwise).  Returns the entries and the pickle file. *)
Definition __parse_json (cache : option Glossary.dict)
    (glos : option (list (str * (str * list (str * list str)))))
  : option (Glossary.dict * option Glossary.dict) :=
  match cache with
  | Some entries => Some (entries, cache)
  | None =>
      match glos with
      | None => None
      | Some g => let entries := build_entries g in Some (entries, Some entries)
      end
  end.

End GlossaryIndex.
End GlossaryIndex.

(** ** The rest of the class [Po] of A_gen_literal_po.py *)

Module PoLines.
Section PoLines.

Variable transfer : str → list (str * str) → str → str → str.
Variable urandom : nat → N.
Variable tokenize : str → str.
(** [format_unicode.bold] *)
Variable bold : str → str.

Definition remove_pagination (line : str) : str :=
  let note := Regex.re_split LBRACKET RBRACKET Regex.lazy_until line in
  if decide (1 < length note)%nat then
    mjoin (filter (λ a, startswith a [BACKSLASH; LBRACKET] = false) note)
  else [].

Definition remove_peydurma_notes (line : str) : str :=
  let note := Regex.re_split LT GT Regex.lazy_until line in
  if decide (1 < length note)%nat then
    replace (mjoin (filter (λ a, startswith a [LT] = false) note)) [COLON] []
  else [].

Definition format_found_entries (entries : list Glossary.value) : str :=
  let out :=
    entries ≫= λ '(a, defs),
      ([NL; 12290; 65024; TAB; 12317] ++ a.1 ++ [12318; SP] ++ a.2)
      :: ((λ '(defn, lines),
             let lines := (λ l, replace (replace l [NL] []) [EM] [HYPHEN]) <$> lines in
             let lines := mjoin ((λ l, [SP; 8259; SP] ++ l) <$> lines) in
             bold defn ++ [SP] ++ lines) <$> defs) in
  join [NL] out.

(** The text of a line as [lines_to_entries] segments it: without its
    notes, or whole when [remove_peydurma_notes] returns the empty string,
    then without its bracketed parts. *)
Definition strip_notes (line : str) : str :=
  let no_notes := remove_peydurma_notes line in
  let no_notes := if decide (no_notes = []) then line else no_notes in
  Regex.re_delete LBRACKET RBRACKET Regex.lazy_plus_until no_notes.

(** The body of the loop of [lines_to_entries]. *)
Definition line_to_entry (glossary : Glossary.dict) (file : POFile) (l : str * str)
  : POFile :=
  let '(line, ctxt) := l in
  let no_notes := Segment.segment_in_words tokenize (strip_notes line) in
  let entries := Glossary.find_entries glossary no_notes in
  let comment := format_found_entries entries in
  PoA._create_entry file no_notes None (Some ctxt) None (Some comment).

(** The unit the body of the loop appends for a pair. *)
Definition unit_of_pair (glossary : Glossary.dict) (l : str * str) : POEntry :=
  let no_notes := Segment.segment_in_words tokenize (strip_notes l.1) in
  {| msgid := no_notes;
     msgstr := [];
     msgctxt := Some l.2;
     comment := None;
     tcomment := Some (format_found_entries (Glossary.find_entries glossary no_notes)) |}.

(** [lines_to_entries] on the entries [self.file] holds; [None] when
    [generate_entries] raises. *)
Definition lines_to_entries (glossary : Glossary.dict) (file : POFile)
    (dump : str) (po_file : option POFile) : Gen (option POFile) :=
  lines ← Transfer.generate_entries transfer urandom dump po_file;
  mret (foldl (line_to_entry glossary) file <$> lines).




End PoLines.
End PoLines.


(** * Properties *)

(** ** Facts about the string operations *)

Section StrFacts.

Implicit Types (s t p : str) (c x : char).

Lemma count_app c s t : count c (s ++ t) = (count c s + count c t)%nat.
Proof.
  induction s as [|x s IH]; simpl; [done|].
  destruct (decide (x = c)); lia.
Qed.

Lemma count_reverse c s : count c (reverse s) = count c s.
Proof.
  induction s as [|x s IH]; [done|].
  rewrite reverse_cons, count_app, IH. simpl.
  destruct (decide (x = c)); lia.
Qed.

Lemma count_zero c s : count c s = 0%nat ↔ c ∉ s.
Proof.
  induction s as [|x s IH]; simpl.
  - split; [intros _; apply not_elem_of_nil | done].
  - rewrite not_elem_of_cons, <- IH.
    destruct (decide (x = c)) as [->|Hx]; split; try lia; try tauto.
Qed.

Lemma count_lstrip c s : isspace c = false → count c (lstrip s) = count c s.
Proof.
  intros Hc. induction s as [|x s IH]; simpl; [done|].
  destruct (isspace x) eqn:Hx; [|done].
  rewrite IH. destruct (decide (x = c)); [congruence | done].
Qed.

Lemma count_strip c s : isspace c = false → count c (strip s) = count c s.
Proof.
  intros Hc. unfold strip, rstrip.
  by rewrite count_reverse, count_lstrip, count_reverse, count_lstrip.
Qed.

(** What [lstrip] drops is a prefix, what [rstrip] drops a suffix. *)
Lemma lstrip_suffix s : ∃ w, s = w ++ lstrip s.
Proof.
  induction s as [|x s [w IH]]; simpl; [by exists []|].
  destruct (isspace x); [|by exists []].
  exists (x :: w). simpl. by rewrite <- IH.
Qed.

Lemma strip_infix s : ∃ w1 w2, s = w1 ++ strip s ++ w2.
Proof.
  destruct (lstrip_suffix s) as [w1 H1].
  destruct (lstrip_suffix (reverse (lstrip s))) as [w2 H2].
  exists w1, (reverse w2). unfold strip, rstrip.
  rewrite <- reverse_app, <- H2, reverse_involutive. done.
Qed.

Lemma strip_not_elem c s : c ∉ s → c ∉ strip s.
Proof.
  destruct (strip_infix s) as (w1 & w2 & H). intros Hc Hin. apply Hc.
  rewrite H. set_solver.
Qed.

Lemma starts_clean_lstrip s : starts_clean s → lstrip s = s.
Proof. destruct s as [|c s]; simpl; [done|]. by intros ->. Qed.

Lemma ends_clean_rstrip s : ends_clean s → rstrip s = s.
Proof.
  intros H. unfold rstrip. rewrite starts_clean_lstrip by done.
  apply reverse_involutive.
Qed.

Lemma strip_clean s : starts_clean s → ends_clean s → strip s = s.
Proof.
  intros H1 H2. unfold strip. rewrite starts_clean_lstrip by done.
  by apply ends_clean_rstrip.
Qed.

Lemma starts_clean_app s t : starts_clean s → starts_clean (s ++ t).
Proof. by destruct s. Qed.

Lemma ends_clean_app s t : ends_clean t → ends_clean (s ++ t).
Proof. unfold ends_clean. rewrite reverse_app. apply starts_clean_app. Qed.

Lemma ends_clean_snoc s c : isspace c = false → ends_clean (s ++ [c]).
Proof. intros H. unfold ends_clean. by rewrite reverse_snoc. Qed.

Lemma ends_clean_inv s : ends_clean s → ∃ s' c, s = s' ++ [c] ∧ isspace c = false.
Proof.
  unfold ends_clean. intros H.
  destruct (reverse s) as [|c r] eqn:E; [done|].
  exists (reverse r), c. split; [|done].
  rewrite <- (reverse_involutive s), E, reverse_cons. done.
Qed.

Lemma lstrip_clean s : lstrip s ≠ [] → starts_clean (lstrip s).
Proof.
  induction s as [|x s IH]; simpl; [done|].
  destruct (isspace x) eqn:Hx; [done|]. by intros _.
Qed.

Lemma lstrip_ends_clean s : ends_clean s → ends_clean (lstrip s).
Proof.
  intros (s' & c & -> & Hc)%ends_clean_inv.
  induction s' as [|x s' IH]; simpl.
  - rewrite Hc. by apply (ends_clean_snoc []).
  - destruct (isspace x); [done|]. by apply (ends_clean_snoc (x :: s')).
Qed.

Lemma strip_starts_clean s : strip s ≠ [] → starts_clean (strip s).
Proof.
  unfold strip, rstrip. intros Hne.
  assert (Hr : lstrip (reverse (lstrip s)) ≠ []).
  { intros E. apply Hne. by rewrite E. }
  apply lstrip_clean in Hr.
  assert (Hl : lstrip s ≠ []).
  { intros E. rewrite E in Hr. done. }
  apply lstrip_clean in Hl.
  apply (lstrip_ends_clean (reverse (lstrip s))).
  unfold ends_clean. by rewrite reverse_involutive.
Qed.

Lemma strip_ends_clean s : strip s ≠ [] → ends_clean (strip s).
Proof.
  unfold strip, rstrip, ends_clean. intros Hne. rewrite reverse_involutive.
  apply lstrip_clean. intros E. apply Hne. by rewrite E.
Qed.

Lemma strip_idemp s : strip (strip s) = strip s.
Proof.
  destruct (decide (strip s = [])) as [->|Hne]; [done|].
  apply strip_clean; [by apply strip_starts_clean | by apply strip_ends_clean].
Qed.

(** *** [startswith], [endswith], [in] *)

Lemma startswith_prefix s p : startswith s p = true ↔ ∃ k, s = p ++ k.
Proof.
  revert s. induction p as [|a p IH]; intros s; simpl.
  - split; [by exists s | done].
  - destruct s as [|b s]; [split; [done | by intros [k ?]]|].
    rewrite andb_true_iff, bool_decide_eq_true, IH. split.
    + intros [-> [k ->]]. by exists k.
    + intros [k [= -> ->]]. split; [done | by exists k].
Qed.

Lemma endswith_suffix s p : endswith s p = true ↔ ∃ k, s = k ++ p.
Proof.
  unfold endswith. rewrite startswith_prefix. split.
  - intros [k H]. exists (reverse k).
    by rewrite <- (reverse_involutive s), H, reverse_app, reverse_involutive.
  - intros [k ->]. exists (reverse k). by rewrite reverse_app.
Qed.

Lemma startswith_length s p : startswith s p = true → (length p ≤ length s)%nat.
Proof. intros [k ->]%startswith_prefix. rewrite length_app. lia. Qed.

Lemma endswith_length s p : endswith s p = true → (length p ≤ length s)%nat.
Proof. intros [k ->]%endswith_suffix. rewrite length_app. lia. Qed.

Lemma contains_length sub s : contains sub s = true → (length sub ≤ length s)%nat.
Proof.
  induction s as [|x s IH]; simpl.
  - rewrite orb_false_r. apply startswith_length.
  - intros [H|H]%orb_true_iff; [by apply startswith_length in H|].
    apply IH in H. lia.
Qed.

Lemma endswith_snoc s x c : endswith (s ++ [x]) [c] = bool_decide (c = x).
Proof.
  unfold endswith. rewrite reverse_snoc. simpl. apply andb_true_r.
Qed.

Lemma endswith_clean s c :
  isspace c = false → endswith s [c] = true → ends_clean s.
Proof. intros Hc [k ->]%endswith_suffix. by apply ends_clean_snoc. Qed.

Lemma endswith_strip s c :
  isspace c = false → endswith s [c] = true → endswith (strip s) [c] = true.
Proof.
  intros Hc [k ->]%endswith_suffix. unfold strip.
  rewrite ends_clean_rstrip.
  - induction k as [|x k IH]; simpl.
    + rewrite Hc. unfold endswith. simpl. by rewrite bool_decide_eq_true_2.
    + destruct (isspace x); [done|].
      etrans; [apply (endswith_snoc (x :: k))|]. by rewrite bool_decide_eq_true_2.
  - apply lstrip_ends_clean. by apply ends_clean_snoc.
Qed.

(** *** [split] and [join] *)

Lemma split_length c s : length (split c s) = S (count c s).
Proof.
  induction s as [|x s IH]; simpl; [done|].
  destruct (decide (x = c)); simpl; [by rewrite IH|].
  destruct (split c s); simpl in *; [done | lia].
Qed.

Lemma split_no_sep c s : Forall (λ p, c ∉ p) (split c s).
Proof.
  induction s as [|x s IH]; simpl.
  - constructor; [apply not_elem_of_nil | done].
  - destruct (decide (x = c)).
    + constructor; [apply not_elem_of_nil | done].
    + destruct (split c s) as [|p ps].
      * constructor; [|done]. apply not_elem_of_cons.
        split; [congruence | apply not_elem_of_nil].
      * inversion IH; subst. constructor; [|done]. apply not_elem_of_cons.
        split; [congruence | done].
Qed.

Lemma join_split c s : join [c] (split c s) = s.
Proof.
  induction s as [|x s IH]; simpl; [done|].
  pose proof (split_length c s) as Hlen.
  destruct (decide (x = c)) as [->|Hx].
  - destruct (split c s) as [|q qs]; [done|]. simpl in *. by rewrite IH.
  - destruct (split c s) as [|q qs]; [done|].
    destruct qs; simpl in *; by rewrite <- IH.
Qed.

Lemma split_no_occurrence c p : c ∉ p → split c p = [p].
Proof.
  induction p as [|x p IH]; simpl; [done|].
  intros [Hx Hp]%not_elem_of_cons. rewrite decide_False by congruence.
  by rewrite IH.
Qed.

Lemma split_app c p t : c ∉ p → split c (p ++ c :: t) = p :: split c t.
Proof.
  induction p as [|x p IH]; simpl.
  - intros _. by rewrite decide_True.
  - intros [Hx Hp]%not_elem_of_cons. rewrite decide_False by congruence.
    by rewrite IH.
Qed.

Lemma split_join c parts :
  parts ≠ [] → Forall (λ p, c ∉ p) parts → split c (join [c] parts) = parts.
Proof.
  induction parts as [|p ps IH]; [done|]. intros _ Hall.
  inversion Hall as [|? ? Hp Hps]; subst.
  destruct ps as [|q qs]; simpl.
  - by apply split_no_occurrence.
  - rewrite split_app by done. f_equal. by apply IH.
Qed.

Lemma split_two c s : count c s = 1%nat → ∃ a b, split c s = [a; b].
Proof.
  intros H. pose proof (split_length c s) as Hlen. rewrite H in Hlen.
  destruct (split c s) as [|a [|b [|? ?]]]; simpl in Hlen; try lia.
  by exists a, b.
Qed.

Lemma split_head c x s : x ≠ c → ∃ p ps, split c (x :: s) = (x :: p) :: ps.
Proof.
  intros Hx. simpl. rewrite decide_False by done.
  destruct (split c s) as [|p ps]; eauto.
Qed.

Lemma split_snoc c s x :
  x ≠ c → ∃ init p, split c s = init ++ [p] ∧ split c (s ++ [x]) = init ++ [p ++ [x]].
Proof.
  intros Hx. induction s as [|y s (init & p & E1 & E2)]; simpl.
  - exists [], []. rewrite decide_False by done. done.
  - destruct (decide (y = c)).
    + exists ([] :: init), p. by rewrite E1, E2.
    + rewrite E1, E2. destruct init as [|i0 init]; simpl.
      * by exists [], (y :: p).
      * by exists ((y :: i0) :: init), p.
Qed.

Lemma join_snoc sep init l :
  init ≠ [] → join sep (init ++ [l]) = join sep init ++ sep ++ l.
Proof.
  induction init as [|p ps IH]; [done|]. intros _.
  destruct ps as [|q qs]; [done|].
  change (p ++ sep ++ join sep ((q :: qs) ++ [l]) = (p ++ sep ++ join sep (q :: qs)) ++ sep ++ l).
  rewrite IH by done. by rewrite <- !app_assoc.
Qed.

(** *** [find] and slices *)

Lemma count_pos_split c s :
  (0 < count c s)%nat → ∃ pre rest, s = pre ++ c :: rest ∧ c ∉ pre.
Proof.
  induction s as [|x s IH]; simpl; [lia|].
  destruct (decide (x = c)) as [->|Hx].
  - intros _. exists [], s. split; [done | apply not_elem_of_nil].
  - intros (pre & rest & -> & Hpre)%IH. exists (x :: pre), rest.
    split; [done|]. apply not_elem_of_cons. by split; [congruence|].
Qed.

Lemma count_two_split c s :
  (2 ≤ count c s)%nat →
  ∃ pre mid rest, s = pre ++ c :: mid ++ c :: rest ∧ (c ∉ pre) ∧ (c ∉ mid).
Proof.
  intros H. destruct (count_pos_split c s) as (pre & t & -> & Hpre); [lia|].
  rewrite count_app in H. simpl in H. rewrite decide_True in H by done.
  apply count_zero in Hpre as Hz. rewrite Hz in H.
  destruct (count_pos_split c t) as (mid & rest & -> & Hmid); [lia|].
  by exists pre, mid, rest.
Qed.

Lemma index_from_first c pre rest i :
  c ∉ pre → index_from c (pre ++ c :: rest) i = (i + Z.of_nat (length pre))%Z.
Proof.
  revert i. induction pre as [|x pre IH]; intros i; simpl.
  - intros _. rewrite decide_True by done. lia.
  - intros [Hx Hpre]%not_elem_of_cons. rewrite decide_False by congruence.
    rewrite IH by done. lia.
Qed.

Lemma clip_inside len i : (0 ≤ i ≤ len)%Z → clip len i = i.
Proof. intros H. unfold clip. rewrite (proj2 (Z.ltb_ge _ _)) by lia. lia. Qed.

Lemma find_first c pre rest :
  c ∉ pre → find (pre ++ c :: rest) c 0 = Z.of_nat (length pre).
Proof.
  intros H. unfold find. rewrite clip_inside by (unfold zlen; lia).
  change (Z.to_nat 0) with 0%nat. rewrite drop_0. by rewrite index_from_first.
Qed.

Lemma find_second c pre mid rest :
  c ∉ mid →
  find (pre ++ c :: mid ++ c :: rest) c (Z.of_nat (length pre) + 1)
  = Z.of_nat (length pre + 1 + length mid).
Proof.
  intros H. unfold find. rewrite clip_inside.
  2:{ unfold zlen. rewrite length_app. simpl. lia. }
  replace (Z.to_nat (Z.of_nat (length pre) + 1)) with (length pre + 1)%nat by lia.
  rewrite (cons_middle c pre), (assoc_L (++) pre [c]).
  rewrite drop_app_length' by (rewrite length_app; simpl; lia).
  rewrite index_from_first by done. lia.
Qed.

Lemma slice_to_app pre t : slice_to (pre ++ t) (Z.of_nat (length pre)) = pre.
Proof.
  unfold slice_to. rewrite clip_inside.
  2:{ unfold zlen. rewrite length_app. lia. }
  rewrite Nat2Z.id. by rewrite take_app_length.
Qed.

Lemma slice_from_app pre t : slice_from (pre ++ t) (Z.of_nat (length pre)) = t.
Proof.
  unfold slice_from. rewrite clip_inside.
  2:{ unfold zlen. rewrite length_app. lia. }
  rewrite Nat2Z.id. by rewrite drop_app_length.
Qed.

(** [s[:-1]] drops the last character. *)
Lemma slice_to_minus_one s x : slice_to (s ++ [x]) (-1) = s.
Proof.
  unfold slice_to, clip, zlen. simpl. rewrite length_app. simpl.
  replace (Z.to_nat _) with (length s) by lia. by rewrite take_app_length.
Qed.

End StrFacts.

(** ** Duplicate repair *)

Section Repair.

Import Transfer.

Lemma isspace_EM : isspace EM = false.
Proof. reflexivity. Qed.

Lemma remove_extra_uuid_few line :
  (count EM line ≤ 2)%nat → remove_extra_uuid line = line.
Proof. intros H. unfold remove_extra_uuid. by rewrite decide_False by lia. Qed.

(** With three delimiters or more the segment from the first delimiter
    through the second is cut out, and the rest trimmed. *)
Lemma remove_extra_uuid_cut pre mid rest :
  EM ∉ pre → EM ∉ mid → (0 < count EM rest)%nat →
  remove_extra_uuid (pre ++ EM :: mid ++ EM :: rest) = strip (pre ++ rest).
Proof.
  intros Hpre Hmid Hrest. unfold remove_extra_uuid.
  rewrite decide_True.
  2:{ rewrite count_app. simpl. rewrite count_app. simpl. lia. }
  rewrite find_first by done. rewrite find_second by done.
  rewrite slice_to_app.
  replace (pre ++ EM :: mid ++ EM :: rest)
    with ((pre ++ EM :: mid ++ [EM]) ++ rest) at 1
    by (by rewrite <- !app_assoc; simpl; rewrite <- app_assoc).
  replace (Z.of_nat (length pre + 1 + length mid) + 1)%Z
    with (Z.of_nat (length (pre ++ EM :: mid ++ [EM]))).
  2:{ rewrite length_app. simpl. rewrite length_app. simpl. lia. }
  by rewrite slice_from_app.
Qed.

End Repair.

(** ** Anchor assignment *)

Section Assign.

Import Transfer Uuid.
Variable urandom : nat → N.

Lemma hexdigit_is_hex d : d < 16 → is_hex (hexdigit d) = true.
Proof.
  intros Hd. unfold is_hex, hexdigit.
  destruct (d <? 10) eqn:E; apply orb_true_iff; [left | right];
    apply andb_true_iff; rewrite !N.leb_le.
  - apply N.ltb_lt in E. lia.
  - apply N.ltb_ge in E. lia.
Qed.

Lemma hex32_is_hex n : Forall (λ c, is_hex c = true) (hex32 n).
Proof.
  unfold hex32. apply Forall_fmap, Forall_forall. intros i _. simpl.
  apply hexdigit_is_hex. change 15 with (N.ones 4).
  rewrite N.land_ones. by apply N.mod_lt.
Qed.

Lemma log2_lt_128 a : a < 2 ^ 128 → N.log2 a < 128.
Proof.
  intros H. destruct (N.eq_dec a 0) as [->|Ha]; [done|].
  apply N.log2_lt_pow2; [lia | done].
Qed.

Lemma lor_lt_128 a b : a < 2 ^ 128 → b < 2 ^ 128 → N.lor a b < 2 ^ 128.
Proof.
  intros Ha Hb. destruct (N.eq_dec (N.lor a b) 0) as [->|Hn]; [done|].
  apply N.log2_lt_pow2; [lia|]. rewrite N.log2_lor.
  apply N.max_lub_lt; by apply log2_lt_128.
Qed.

(** The identifier is a 128-bit number. *)
Lemma uuid4_int_128 r : uuid4_int r < 2 ^ 128.
Proof.
  unfold uuid4_int. apply lor_lt_128; [|done].
  eapply N.le_lt_trans; [apply N.ldiff_le_l|].
  apply lor_lt_128; [|done].
  eapply N.le_lt_trans; [apply N.ldiff_le_l|]. by apply N.mod_lt.
Qed.

Lemma hex32_length n : length (hex32 n) = 32%nat.
Proof. unfold hex32. by rewrite length_fmap. Qed.

Lemma is_hex_plain c :
  is_hex c = true → c ≠ EM ∧ c ≠ NL ∧ isspace c = false.
Proof.
  unfold is_hex, isspace, EM, NL.
  intros [[H1 H2]%andb_true_iff|[H1 H2]%andb_true_iff]%orb_true_iff;
    apply N.leb_le in H1, H2; (split; [lia|]); (split; [lia|]);
    repeat (apply orb_false_iff; split); try (apply andb_false_iff);
    rewrite ?N.eqb_neq, ?N.leb_gt; lia.
Qed.

Lemma hex32_no_EM n : EM ∉ hex32 n.
Proof.
  intros Hin. pose proof (hex32_is_hex n) as H.
  rewrite Forall_forall in H. by apply H, is_hex_plain in Hin as [? _].
Qed.

Lemma hex32_no_NL n : NL ∉ hex32 n.
Proof.
  intros Hin. pose proof (hex32_is_hex n) as H.
  rewrite Forall_forall in H. by apply H, is_hex_plain in Hin as (_ & ? & _).
Qed.

Lemma missing_cons l lines :
  missing (l :: lines) = ((if anchored l then 0 else 1) + missing lines)%nat.
Proof.
  unfold missing. rewrite filter_cons.
  destruct (anchored l); by rewrite ?decide_True, ?decide_False by done.
Qed.

Lemma add_missing_uuids_loop_cons l0 rest n :
  add_missing_uuids_loop urandom (l0 :: rest) n =
  if anchored l0 then
    let (rest', n') := add_missing_uuids_loop urandom rest n in (l0 :: rest', n')
  else
    let (rest', n') := add_missing_uuids_loop urandom rest (S n) in
    ((strip l0 ++ [EM] ++ hex32 (uuid4_int (urandom n)) ++ [EM]) :: rest', n').
Proof. unfold anchored. simpl. by destruct (endswith (strip l0) [EM]). Qed.

Lemma add_missing_uuids_loop_spec lines n :
  ∃ lines',
    add_missing_uuids_loop urandom lines n = (lines', (n + missing lines)%nat) ∧
    length lines' = length lines ∧
    ∀ i l, lines !! i = Some l →
      lines' !! i = Some
        (if anchored l then l
         else strip l ++ [EM]
                ++ hex32 (uuid4_int (urandom (n + missing (take i lines)))) ++ [EM]).
Proof.
  revert n. induction lines as [|l0 rest IH]; intros n.
  - exists []. split; [|done]. unfold missing. simpl. by rewrite Nat.add_0_r.
  - rewrite add_missing_uuids_loop_cons, missing_cons.
    destruct (anchored l0) eqn:E.
    + destruct (IH n) as (rest' & -> & Hlen & Hnth).
      exists (l0 :: rest'). split; [done|]. split; [simpl; by rewrite Hlen|].
      intros [|i] l; simpl.
      * intros [= <-]. by rewrite E.
      * intros H. rewrite missing_cons, E. by apply Hnth.
    + destruct (IH (S n)) as (rest' & -> & Hlen & Hnth).
      eexists (_ :: rest'). split; [f_equal; lia|]. split; [simpl; by rewrite Hlen|].
      intros [|i] l; simpl.
      * intros [= <-]. rewrite E. unfold missing. simpl. by rewrite Nat.add_0_r.
      * intros H. rewrite missing_cons, E.
        replace (n + (1 + missing (take i rest)))%nat
          with (S n + missing (take i rest))%nat by lia.
        by apply Hnth.
Qed.

Lemma add_missing_uuids_loop_anchored lines n :
  Forall (λ l, anchored l = true) lines →
  add_missing_uuids_loop urandom lines n = (lines, n).
Proof.
  induction 1 as [|l rest Hl _ IH]; [done|].
  by rewrite add_missing_uuids_loop_cons, Hl, IH.
Qed.

End Assign.

(** ** The identifier and its draw *)

Section Identifier.

Import Transfer Uuid.

(** The bits of the identifier: the variant and the version are fixed, the
    other 122 are those of the draw. *)
Lemma uuid4_int_testbit r b :
  N.testbit (uuid4_int r) b =
    if decide (b = 63 ∨ b = 78) then true
    else if decide (b = 62 ∨ b = 76 ∨ b = 77 ∨ b = 79) then false
    else if decide (b < 128) then N.testbit r b else false.
Proof.
  unfold uuid4_int. cbv zeta.
  change (N.shiftl 49152 48) with (N.lor (2 ^ 62) (2 ^ 63)).
  change (N.shiftl 32768 48) with (2 ^ 63).
  change (N.shiftl 61440 64) with (N.lor (N.lor (2 ^ 76) (2 ^ 77)) (N.lor (2 ^ 78) (2 ^ 79))).
  change (N.shiftl 4 76) with (2 ^ 78).
  repeat rewrite ?N.lor_spec, ?N.ldiff_spec, ?N.pow2_bits_eqb.
  destruct (N.eqb_spec 62 b), (N.eqb_spec 63 b), (N.eqb_spec 76 b), (N.eqb_spec 77 b),
    (N.eqb_spec 78 b), (N.eqb_spec 79 b);
    try lia; repeat case_decide; try lia;
    rewrite ?andb_true_r, ?andb_false_r, ?orb_true_r, ?orb_false_r; try done.
  - by apply N.mod_pow2_bits_low.
  - apply N.mod_pow2_bits_high. lia.
Qed.

Lemma hexdigit_inj d d' : d < 16 → d' < 16 → hexdigit d = hexdigit d' → d = d'.
Proof.
  unfold hexdigit. intros Hd Hd'.
  destruct (N.ltb_spec d 10), (N.ltb_spec d' 10); lia.
Qed.

Lemma hex32_lookup n (i : nat) :
  (i < 32)%nat →
  hex32 n !! i = Some (hexdigit (N.land (N.shiftr n (4 * N.of_nat (31 - i))) 15)).
Proof.
  intros Hi. unfold hex32. rewrite list_lookup_fmap, lookup_seq_lt by done. done.
Qed.

Lemma nibble_lt n k : N.land (N.shiftr n k) 15 < 16.
Proof. change 15 with (N.ones 4). rewrite N.land_ones. by apply N.mod_lt. Qed.

Lemma nibble_testbit n k j :
  N.testbit (N.land (N.shiftr n k) 15) j
  = if decide (j < 4) then N.testbit n (j + k) else false.
Proof.
  change 15 with (N.ones 4). rewrite N.land_ones. case_decide.
  - rewrite N.mod_pow2_bits_low by done. apply N.shiftr_spec'.
  - apply N.mod_pow2_bits_high. lia.
Qed.

Lemma testbit_high a m : a < 2 ^ 128 → 128 ≤ m → N.testbit a m = false.
Proof.
  intros Ha Hm. rewrite <- (N.mod_small a (2 ^ 128)) by done.
  by apply N.mod_pow2_bits_high.
Qed.

(** The 32 digits determine the number. *)
Lemma hex32_inj a b : a < 2 ^ 128 → b < 2 ^ 128 → hex32 a = hex32 b → a = b.
Proof.
  intros Ha Hb E. apply N.bits_inj. intros m.
  destruct (N.lt_ge_cases m 128) as [Hm|Hm]; [|by rewrite !testbit_high].
  pose (k := m / 4). pose (j := m mod 4).
  assert (Hmk : m = j + 4 * k) by (unfold j, k; rewrite N.add_comm; by apply N.div_mod).
  assert (Hj : j < 4) by (by apply N.mod_lt).
  assert (Hk : k < 32) by (apply N.Div0.div_lt_upper_bound; lia).
  pose (i := (31 - N.to_nat k)%nat).
  assert (Hi : (i < 32)%nat) by (unfold i; lia).
  assert (Hik : N.of_nat (31 - i) = k) by (unfold i; lia).
  pose proof (f_equal (λ l, l !! i) E) as El. cbv beta in El.
  rewrite !hex32_lookup, Hik in El by done. injection El as El.
  apply hexdigit_inj in El; [|apply nibble_lt ..].
  pose proof (f_equal (λ x, N.testbit x j) El) as Eb. cbv beta in Eb.
  rewrite !nibble_testbit, !decide_True in Eb by done. by rewrite Hmk.
Qed.

(** Two draws give the same identifier exactly when they agree on the
    bits that are not overwritten. *)
Lemma hex32_uuid4_eq r r' :
  hex32 (uuid4_int r) = hex32 (uuid4_int r') ↔ same_random_bits r r'.
Proof.
  split.
  - intros E%hex32_inj; [|apply uuid4_int_128 ..].
    intros b Hb H1 H2.
    pose proof (f_equal (λ x, N.testbit x b) E) as Eb. cbv beta in Eb.
    rewrite !uuid4_int_testbit in Eb. repeat case_decide; try lia. done.
  - intros H. f_equal. apply N.bits_inj. intros b.
    rewrite !uuid4_int_testbit. repeat case_decide; try done.
    apply H; lia.
Qed.

(** The thirteenth digit is the version, 4, and the seventeenth the
    variant: one of 8, 9, a, b. *)
Lemma hex32_uuid4_version r :
  hex32 (uuid4_int r) !! 12%nat = Some 52 ∧
  ∃ c, hex32 (uuid4_int r) !! 16%nat = Some c ∧ c ∈ [56; 57; 97; 98].
Proof.
  split.
  - rewrite hex32_lookup by lia. change (4 * N.of_nat (31 - 12)) with 76.
    replace (N.land (N.shiftr (uuid4_int r) 76) 15) with 4; [done|].
    apply N.bits_inj. intros j. rewrite nibble_testbit, uuid4_int_testbit.
    change 4 with (2 ^ 2). rewrite N.pow2_bits_eqb.
    destruct (N.eqb_spec 2 j); repeat case_decide; try lia; done.
  - rewrite hex32_lookup by lia. change (4 * N.of_nat (31 - 16)) with 60.
    eexists. split; [done|].
    pose proof (nibble_lt (uuid4_int r) 60) as Hlt.
    pose proof (nibble_testbit (uuid4_int r) 60 3) as H3.
    pose proof (nibble_testbit (uuid4_int r) 60 2) as H2.
    rewrite uuid4_int_testbit in H3, H2.
    repeat case_decide; try lia.
    set (d := N.land (N.shiftr (uuid4_int r) 60) 15) in *.
    assert (Hd : d = 8 ∨ d = 9 ∨ d = 10 ∨ d = 11).
    { assert (d = 0 ∨ d = 1 ∨ d = 2 ∨ d = 3 ∨ d = 4 ∨ d = 5 ∨ d = 6 ∨ d = 7 ∨
              d = 8 ∨ d = 9 ∨ d = 10 ∨ d = 11 ∨ d = 12 ∨ d = 13 ∨ d = 14 ∨ d = 15)
        as Hc by lia.
      clear Hlt. repeat destruct Hc as [Hc|Hc]; rewrite Hc in H3, H2;
        try discriminate; auto. }
    destruct Hd as [-> | [-> | [-> | ->]]]; vm_compute; repeat constructor.
Qed.

(** Counting the draws: a line that needs an identifier takes the draw
    after those of the lines before it, and every later line a later one. *)
Lemma missing_app l1 l2 : missing (l1 ++ l2) = (missing l1 + missing l2)%nat.
Proof. unfold missing. by rewrite filter_app, length_app. Qed.

Lemma missing_take_le (lines : list str) i : (missing (take i lines) ≤ missing lines)%nat.
Proof. rewrite <- (take_drop i lines) at 2. rewrite missing_app. lia. Qed.

Lemma missing_take_lt (lines : list str) i j l :
  lines !! i = Some l → anchored l = false → (i < j)%nat →
  (missing (take i lines) < missing (take j lines))%nat.
Proof.
  intros Hl Ha Hij.
  assert (Hi : take j lines !! i = Some l) by (by rewrite lookup_take_lt).
  rewrite <- (take_drop_middle _ _ _ Hi), take_take, Nat.min_l, missing_app by lia.
  rewrite missing_cons, Ha. lia.
Qed.

End Identifier.

(** ** Resynchronization *)

Section Resync.

Import Transfer Uuid.
Variable transfer : str → list (str * str) → str → str → str.
Variable urandom : nat → N.

Lemma add_missing_uuids_loop_assigned lines n :
  Forall2 assigned lines (add_missing_uuids_loop urandom lines n).1.
Proof.
  revert n. induction lines as [|l0 rest IH]; intros n; [constructor|].
  rewrite add_missing_uuids_loop_cons. unfold assigned at 1.
  destruct (anchored l0) eqn:E.
  - specialize (IH n). destruct (add_missing_uuids_loop urandom rest n).
    constructor; [by rewrite E | done].
  - specialize (IH (S n)). destruct (add_missing_uuids_loop urandom rest (S n)).
    constructor; [|done]. rewrite E. eexists. split; [apply hex32_is_hex | done].
Qed.

Lemma hex_no_EM id : Forall (λ c, is_hex c = true) id → EM ∉ id.
Proof.
  rewrite Forall_forall. intros H Hin. by apply H, is_hex_plain in Hin as [? _].
Qed.

Lemma hex_no_NL id : Forall (λ c, is_hex c = true) id → NL ∉ id.
Proof.
  rewrite Forall_forall. intros H Hin. by apply H, is_hex_plain in Hin as (_ & ? & _).
Qed.

Lemma anchored_nonempty l : anchored l = true → strip l ≠ [].
Proof. unfold anchored. intros [k E]%endswith_suffix. rewrite E. by destruct k. Qed.

(** The line an identifier was appended to. *)
Lemma fresh_line_clean l id :
  let l' := strip l ++ [EM] ++ id ++ [EM] in
  starts_clean l' ∧ ends_clean l' ∧ endswith l' [EM] = true.
Proof.
  cbv zeta. split; [|split].
  - destruct (decide (strip l = [])) as [->|Hne]; [done|].
    by apply starts_clean_app, strip_starts_clean.
  - rewrite (assoc_L (++) (strip l) [EM]), (assoc_L (++) _ id).
    by apply ends_clean_snoc.
  - rewrite (assoc_L (++) (strip l) [EM]), (assoc_L (++) _ id).
    by rewrite endswith_snoc, bool_decide_eq_true.
Qed.

Lemma fresh_line_count l id :
  EM ∉ id → count EM (strip l ++ [EM] ++ id ++ [EM]) = (count EM (strip l) + 2)%nat.
Proof.
  intros H%count_zero. rewrite !count_app, H. simpl. lia.
Qed.

Lemma assigned_no_NL l l' : assigned l l' → NL ∉ l → NL ∉ l'.
Proof.
  unfold assigned. destruct (anchored l); [by intros ->|].
  intros (id & Hid & ->) Hl. rewrite !not_elem_of_app. repeat split.
  - by apply strip_not_elem.
  - by apply not_elem_of_cons; split; [|apply not_elem_of_nil].
  - by apply hex_no_NL.
  - by apply not_elem_of_cons; split; [|apply not_elem_of_nil].
Qed.

Lemma assigned_starts_clean l l' : starts_clean l → assigned l l' → starts_clean l'.
Proof.
  unfold assigned. destruct (anchored l); [by intros ? ->|].
  intros _ (id & _ & ->). apply fresh_line_clean.
Qed.

Lemma assigned_ends_clean l l' : ends_clean l → assigned l l' → ends_clean l'.
Proof.
  unfold assigned. destruct (anchored l); [by intros ? ->|].
  intros _ (id & _ & ->). apply fresh_line_clean.
Qed.

(** A line that is not clean at an end is not anchored, so the loop makes
    it clean. *)
Lemma assigned_empty l' : assigned [] l' → starts_clean l' ∧ ends_clean l'.
Proof.
  unfold assigned. change (anchored []) with false.
  intros (id & _ & ->). split; apply (fresh_line_clean []).
Qed.

Lemma split_head_clean t l :
  starts_clean t → head (split NL t) = Some l → starts_clean l.
Proof.
  destruct t as [|c t]; [done|]. intros Hc.
  destruct (split_head NL c t) as (p & ps & E).
  { intros ->. done. }
  rewrite E. by intros [= <-].
Qed.

Lemma split_last_clean t l :
  ends_clean t → last (split NL t) = Some l → ends_clean l.
Proof.
  intros (s & x & -> & Hx)%ends_clean_inv.
  destruct (split_snoc NL s x) as (init & p & _ & E).
  { intros ->. done. }
  rewrite E, last_snoc. intros [= <-]. by apply ends_clean_snoc.
Qed.

Lemma join_starts_clean ls l :
  head ls = Some l → starts_clean l → starts_clean (join [NL] ls).
Proof.
  destruct ls as [|p [|q qs]]; [done| |]; intros [= ->] H; [done|].
  by apply starts_clean_app.
Qed.

Lemma join_ends_clean ls l :
  last ls = Some l → ends_clean l → ends_clean (join [NL] ls).
Proof.
  intros [init ->]%last_Some H. destruct init as [|p ps]; [done|].
  rewrite join_snoc by done. by apply ends_clean_app, ends_clean_app.
Qed.

Lemma Forall2_head_r {A B} (R : A → B → Prop) l k y :
  Forall2 R l k → head k = Some y → ∃ x, head l = Some x ∧ R x y.
Proof. destruct 1; [done|]. intros [= ->]. eauto. Qed.

Lemma Forall2_last_r {A B} (R : A → B → Prop) l k y :
  Forall2 R l k → last k = Some y → ∃ x, last l = Some x ∧ R x y.
Proof.
  intros H [k' ->]%last_Some.
  apply Forall2_app_inv_r in H as (l' & l1 & _ & H1 & ->).
  apply Forall2_cons_inv_r in H1 as (x & l2 & Hx & ->%Forall2_nil_inv_r & ->).
  exists x. by rewrite last_snoc.
Qed.

(** After the assignment the document is already trimmed, and its lines
    are the lines the loop produced. *)
Lemma add_missing_uuids_lines dump n :
  split NL (strip (add_missing_uuids urandom dump n).1)
  = (add_missing_uuids_loop urandom (split NL (strip dump)) n).1.
Proof.
  unfold add_missing_uuids, mbind, gen_bind, mret, gen_ret.
  pose proof (add_missing_uuids_loop_assigned (split NL (strip dump)) n) as HA.
  pose proof (split_no_sep NL (strip dump)) as HNL.
  pose proof (split_length NL (strip dump)) as Hlen.
  assert (Hhead : ∀ l l', head (split NL (strip dump)) = Some l →
                          assigned l l' → starts_clean l').
  { destruct (decide (strip dump = [])) as [Hd|Hd].
    - rewrite Hd. intros l l' [= <-] H. by apply assigned_empty.
    - intros l l' Hh Ha. eapply assigned_starts_clean; [|done].
      eapply split_head_clean; [|done]. by apply strip_starts_clean. }
  assert (Hlast : ∀ l l', last (split NL (strip dump)) = Some l →
                          assigned l l' → ends_clean l').
  { destruct (decide (strip dump = [])) as [Hd|Hd].
    - rewrite Hd. intros l l' [= <-] H. by apply assigned_empty.
    - intros l l' Hh Ha. eapply assigned_ends_clean; [|done].
      eapply split_last_clean; [|done]. by apply strip_ends_clean. }
  destruct (add_missing_uuids_loop urandom (split NL (strip dump)) n) as [lines' n'].
  simpl in *.
  assert (Hne : lines' ≠ []).
  { apply Forall2_length in HA. intros ->. simpl in HA. lia. }
  rewrite strip_clean.
  - apply split_join; [done|].
    clear -HA HNL. induction HA as [|l l' ls ls' Hl _ IH]; [done|].
    inversion HNL; subst. constructor; [by eapply assigned_no_NL | by apply IH].
  - destruct (head lines') as [l'|] eqn:Hh; [|by apply head_None in Hh].
    apply join_starts_clean with l'; [done|].
    destruct (Forall2_head_r _ _ _ _ HA Hh) as (l & ? & ?). eauto.
  - destruct (last lines') as [l'|] eqn:Hh; [|by apply last_None in Hh].
    apply join_ends_clean with l'; [done|].
    destruct (Forall2_last_r _ _ _ _ HA Hh) as (l & ? & ?). eauto.
Qed.

Lemma endswith_app_nonempty (s t : str) c :
  t ≠ [] → endswith (s ++ t) [c] = endswith t [c].
Proof.
  destruct t as [|x t _] using rev_ind; [done|]. intros _.
  by rewrite (assoc_L (++)), !endswith_snoc.
Qed.

(** One trailing anchor: dropping the last delimiter leaves one, and the
    split has its two parts. *)
Lemma split_one_anchor (r : str) :
  endswith r [EM] = true → count EM r = 2%nat →
  ∃ txt ctxt, split EM (slice_to r (-1)) = [txt; ctxt] ∧ (EM ∉ txt) ∧ (EM ∉ ctxt).
Proof.
  intros [k ->]%endswith_suffix Hc. rewrite slice_to_minus_one.
  rewrite count_app in Hc. simpl in Hc.
  destruct (split_two EM k) as (a & b & E); [lia|].
  pose proof (split_no_sep EM k) as Hall. rewrite E in Hall.
  exists a, b. split; [done|].
  inversion Hall as [|? ? Ha Hb]; subst. inversion Hb; subst. done.
Qed.

Lemma entry_of_line_anchored l :
  anchored l = true → count EM (strip l) = 2%nat ∨ count EM (strip l) = 4%nat →
  ∃ txt ctxt, entry_of_line l = Some (txt, ctxt) ∧ (EM ∉ txt) ∧ (EM ∉ ctxt).
Proof.
  unfold anchored, entry_of_line. intros Hend [Hc|Hc].
  - rewrite remove_extra_uuid_few by lia.
    destruct (split_one_anchor (strip l)) as (a & b & -> & ?); by eauto.
  - destruct (count_two_split EM (strip l)) as (pre & mid & rest & E & Hpre & Hmid); [lia|].
    rewrite E in Hc, Hend |- *.
    rewrite count_app in Hc. simpl in Hc. rewrite count_app in Hc. simpl in Hc.
    apply count_zero in Hpre as Hp0, Hmid as Hm0.
    assert (Hrest : rest ≠ []) by (intros ->; simpl in Hc; lia).
    rewrite remove_extra_uuid_cut by (done || lia).
    destruct (split_one_anchor (strip (pre ++ rest))) as (a & b & -> & ?); [| |by eauto].
    + apply endswith_strip; [done|]. rewrite endswith_app_nonempty by done.
      rewrite <- Hend.
      rewrite (cons_middle EM pre), (cons_middle EM mid), !(assoc_L (++)).
      by rewrite endswith_app_nonempty.
    + rewrite count_strip by done. rewrite count_app. lia.
Qed.

(** A line the assignment produced from a parsable line gives its pair. *)
Lemma entry_of_line_assigned l l' :
  parsable l → assigned l l' →
  ∃ txt ctxt, entry_of_line l' = Some (txt, ctxt) ∧ (EM ∉ txt) ∧ (EM ∉ ctxt).
Proof.
  unfold parsable, assigned. intros Hp Ha.
  destruct (anchored l) eqn:E.
  - subst l'. apply entry_of_line_anchored; [done|].
    destruct Hp as [H0|[H2|[H4 _]]]; [|by left|by right].
    exfalso. unfold anchored in E. apply endswith_suffix in E as [k E].
    rewrite E, count_app in H0. simpl in H0. lia.
  - destruct Ha as (id & Hid & ->).
    pose proof (fresh_line_clean l id) as (Hs & He & Hend).
    pose proof (fresh_line_count l id (hex_no_EM id Hid)) as Hcount.
    apply entry_of_line_anchored.
    + unfold anchored. by rewrite strip_clean.
    + rewrite strip_clean by done. rewrite Hcount.
      destruct Hp as [H0|[H2|[_ ?]]]; [left; lia | right; lia | done].
Qed.

Lemma generate_entries_unfold dump po n :
  (generate_entries transfer urandom dump po n).1
  = mapM entry_of_line
      (split NL (strip (add_missing_uuids urandom (resync_input transfer dump po) n).1)).
Proof.
  unfold generate_entries, resync_input, mbind, gen_bind, mret, gen_ret.
  by destruct (add_missing_uuids urandom _ n).
Qed.

Lemma split_not_elem c c' (s : str) : c' ∉ s → Forall (λ p, c' ∉ p) (split c s).
Proof.
  intros H. induction s as [|x s IH]; simpl.
  - constructor; [apply not_elem_of_nil | done].
  - apply not_elem_of_cons in H as [Hx Hs]. specialize (IH Hs).
    destruct (decide (x = c)).
    + constructor; [apply not_elem_of_nil | done].
    + destruct (split c s) as [|q qs].
      * constructor; [|done].
        apply not_elem_of_cons; split; [done | apply not_elem_of_nil].
      * inversion IH; subst. constructor; [|done]. by apply not_elem_of_cons.
Qed.

(** Raw text without the delimiter is parsable line by line. *)
Lemma no_delimiter_parsable dump :
  EM ∉ dump → Forall parsable (split NL (strip dump)).
Proof.
  intros H. eapply Forall_impl; [apply split_not_elem, strip_not_elem, H|].
  intros l Hl. left. by apply count_zero, strip_not_elem.
Qed.

Lemma assigned_lines_parse lines lines' :
  Forall2 assigned lines lines' → Forall parsable lines →
  Forall (λ l', ∃ txt ctxt, entry_of_line l' = Some (txt, ctxt)
                  ∧ (EM ∉ txt) ∧ (EM ∉ ctxt)) lines'.
Proof.
  induction 1 as [|l l' ls ls' Hl _ IH]; [done|]. intros Hp.
  inversion Hp; subst. constructor; [by eapply entry_of_line_assigned | by apply IH].
Qed.

(** The repair keeps a trailing delimiter, and takes two delimiters away
    when there are more than two. *)
Lemma remove_extra_uuid_anchored (s : str) :
  endswith s [EM] = true →
  endswith (remove_extra_uuid s) [EM] = true ∧
  count EM (remove_extra_uuid s)
  = if decide (2 < count EM s)%nat then (count EM s - 2)%nat else count EM s.
Proof.
  intros Hend. destruct (decide (2 < count EM s)%nat) as [Hk|Hk].
  - destruct (count_two_split EM s) as (pre & mid & rest & E & Hpre & Hmid); [lia|].
    rewrite E in Hk, Hend |- *.
    rewrite count_app in Hk |- *. simpl in Hk |- *.
    rewrite count_app in Hk |- *. simpl in Hk |- *.
    apply count_zero in Hpre as Hp0, Hmid as Hm0.
    assert (Hrest : rest ≠ []) by (intros ->; simpl in Hk; lia).
    rewrite remove_extra_uuid_cut by (done || lia). split.
    + apply endswith_strip; [done|]. rewrite endswith_app_nonempty by done.
      rewrite <- Hend.
      rewrite (cons_middle EM pre), (cons_middle EM mid), !(assoc_L (++)).
      by rewrite endswith_app_nonempty.
    + rewrite count_strip by done. rewrite count_app. lia.
  - by rewrite remove_extra_uuid_few by lia.
Qed.

(** An anchored line gives its pair exactly when it has two delimiters, or
    four. *)
Lemma entry_of_line_anchored_None l :
  anchored l = true → count EM (strip l) ≠ 2%nat → count EM (strip l) ≠ 4%nat →
  entry_of_line l = None.
Proof.
  unfold anchored, entry_of_line. intros Hend H2 H4.
  destruct (remove_extra_uuid_anchored (strip l) Hend) as [Hr Hc].
  apply endswith_suffix in Hr as [k Hk]. rewrite Hk in Hc |- *.
  rewrite slice_to_minus_one. rewrite count_app in Hc. simpl in Hc.
  pose proof (split_length EM k) as Hlen.
  assert (count EM k ≠ 1%nat) by (destruct (decide _); lia).
  destruct (split EM k) as [|a [|b [|c d]]]; simpl in Hlen; try done. lia.
Qed.

Lemma entry_of_line_unparsable l l' :
  ¬ parsable l → assigned l l' → entry_of_line l' = None.
Proof.
  unfold parsable, assigned. intros Hp Ha.
  destruct (anchored l) eqn:E.
  - subst l'. apply entry_of_line_anchored_None; [done|lia|].
    intros H4. apply Hp. by right; right.
  - destruct Ha as (id & Hid & ->).
    pose proof (fresh_line_clean l id) as (Hs & He & Hend).
    pose proof (fresh_line_count l id (hex_no_EM id Hid)) as Hcount.
    apply entry_of_line_anchored_None.
    + unfold anchored. by rewrite strip_clean.
    + rewrite strip_clean by done. lia.
    + rewrite strip_clean by done. lia.
Qed.

End Resync.

(** ** The claims on anchors *)

(** C1, as amended.  When every line of the document handed to
    [add_missing_uuids] (the raw text on a first run, the output of the
    alignment primitive otherwise) is parsable, that is contains once trimmed
    no delimiter, two delimiters, or four with the last one ending the line,
    [generate_entries] does not fail and returns exactly one (text, anchor)
    pair per line, with no delimiter left in either component. *)
Theorem generate_entries_one_pair_per_line
    (transfer : str → list (str * str) → str → str → str) (urandom : nat → N)
    (dump : str) (po : option POFile) (n : nat) :
  Forall Transfer.parsable (split NL (strip (resync_input transfer dump po))) →
  ∃ entries,
    (Transfer.generate_entries transfer urandom dump po n).1 = Some entries ∧
    length entries = length (split NL (strip (resync_input transfer dump po))) ∧
    Forall (λ e, (EM ∉ e.1) ∧ (EM ∉ e.2)) entries.
Proof.
  intros Hp. rewrite generate_entries_unfold, add_missing_uuids_lines.
  pose proof (add_missing_uuids_loop_assigned urandom
                (split NL (strip (resync_input transfer dump po))) n) as HA.
  pose proof (assigned_lines_parse _ _ HA Hp) as Hall.
  set (lines := split NL (strip (resync_input transfer dump po))) in *.
  set (lines' := (Transfer.add_missing_uuids_loop urandom lines n).1) in *.
  clearbody lines lines'.
  destruct (mapM_is_Some_2 Transfer.entry_of_line lines') as [entries E].
  { eapply Forall_impl; [exact Hall|]. intros l' (txt & ctxt & E' & _).
    unfold compose. rewrite E'. by eexists. }
  exists entries. split; [done|].
  apply mapM_Some_1 in E. split.
  - apply Forall2_length in E, HA. lia.
  - clear -E Hall. induction E as [|l' e ls' es He _ IH]; [done|].
    inversion Hall as [|? ? (txt & ctxt & E' & ? & ?) Hrest]; subst.
    constructor; [|by apply IH]. rewrite E' in He. by injection He as <-.
Qed.

Lemma generate_entries_one_pair_per_line_witness :
  ∃ entries,
    (Transfer.generate_entries transfer_unmarked zero_source
       (py "ab" ++ [NL] ++ py "cd" ++ [EM] ++ py "x" ++ [EM]) None 0%nat).1 = Some entries ∧
    length entries = 2%nat ∧
    Forall (λ e, (EM ∉ e.1) ∧ (EM ∉ e.2)) entries.
Proof.
  apply (generate_entries_one_pair_per_line transfer_unmarked zero_source
           (py "ab" ++ [NL] ++ py "cd" ++ [EM] ++ py "x" ++ [EM]) None 0%nat).
  repeat first
    [ apply Forall_nil_2
    | apply Forall_cons_2; [first [by left | by right; left | by right; right]|] ].
Defined.

(** X24.  The condition of the amended claim is the exact one:
    [generate_entries] returns its pairs if and only if every line handed to
    [add_missing_uuids] is parsable, and fails otherwise. *)
Theorem generate_entries_parses_iff
    (transfer : str → list (str * str) → str → str → str) (urandom : nat → N)
    (dump : str) (po : option POFile) (n : nat) :
  is_Some (Transfer.generate_entries transfer urandom dump po n).1
  ↔ Forall Transfer.parsable (split NL (strip (resync_input transfer dump po))).
Proof.
  rewrite generate_entries_unfold, add_missing_uuids_lines.
  pose proof (add_missing_uuids_loop_assigned urandom
                (split NL (strip (resync_input transfer dump po))) n) as HA.
  split.
  - intros Hs%mapM_is_Some_1.
    induction HA as [|l l' ls ls' Hl _ IH]; [done|].
    inversion Hs as [|? ? Hl' Hrest]; subst. constructor; [|by apply IH].
    destruct (decide (Transfer.parsable l)) as [|Hn]; [done|].
    apply (entry_of_line_unparsable l l') in Hn; [|done].
    unfold compose in Hl'. rewrite Hn in Hl'. by destruct Hl'.
  - intros Hp. apply mapM_is_Some_2.
    eapply Forall_impl; [exact (assigned_lines_parse _ _ HA Hp)|].
    intros l' (txt & ctxt & E' & _). unfold compose. rewrite E'. by eexists.
Qed.

(** A first run over raw text that has no delimiter always parses. *)
Corollary generate_entries_first_run
    (transfer : str → list (str * str) → str → str → str) (urandom : nat → N)
    (dump : str) (n : nat) :
  EM ∉ dump → is_Some (Transfer.generate_entries transfer urandom dump None n).1.
Proof.
  intros H. rewrite generate_entries_unfold, add_missing_uuids_lines.
  pose proof (add_missing_uuids_loop_assigned urandom
                (split NL (strip (resync_input transfer dump None))) n) as HA.
  apply mapM_is_Some_2.
  eapply Forall_impl;
    [exact (assigned_lines_parse _ _ HA (no_delimiter_parsable dump H))|].
  intros l' (txt & ctxt & E' & _). unfold compose. rewrite E'. by eexists.
Qed.

(** C1, as stated, fails: a raw line with one delimiter inside gets its
    anchor, has then three delimiters, loses the segment between the first
    two, and the split of what is left has a single part. *)
Lemma generate_entries_fails_on_delimiter_in_text :
  (Transfer.generate_entries transfer_unmarked zero_source
     (py "a" ++ [EM] ++ py "b") None 0%nat).1 = None.
Proof. vm_compute. reflexivity. Qed.

(** C2, as amended.  [remove_extra_uuid] returns a line with at most two
    delimiters unchanged.  On a line with [k], three or more, it cuts out
    the segment from the first delimiter through the second and trims what
    is left, which has [k - 2] delimiters: exactly two when [k] is four
    (two stacked anchors). *)
Theorem remove_extra_uuid_spec (line : str) :
  ((count EM line ≤ 2)%nat → Transfer.remove_extra_uuid line = line) ∧
  ((3 ≤ count EM line)%nat →
     ∃ pre mid rest,
       line = pre ++ EM :: mid ++ EM :: rest ∧ (EM ∉ pre) ∧ (EM ∉ mid) ∧
       Transfer.remove_extra_uuid line = strip (pre ++ rest) ∧
       count EM (Transfer.remove_extra_uuid line) = (count EM line - 2)%nat) ∧
  (count EM line = 4%nat → count EM (Transfer.remove_extra_uuid line) = 2%nat).
Proof.
  assert (Hcut : (3 ≤ count EM line)%nat →
     ∃ pre mid rest,
       line = pre ++ EM :: mid ++ EM :: rest ∧ (EM ∉ pre) ∧ (EM ∉ mid) ∧
       Transfer.remove_extra_uuid line = strip (pre ++ rest) ∧
       count EM (Transfer.remove_extra_uuid line) = (count EM line - 2)%nat).
  { intros Hk.
    destruct (count_two_split EM line) as (pre & mid & rest & -> & Hpre & Hmid); [lia|].
    apply count_zero in Hpre as Hp0, Hmid as Hm0.
    rewrite count_app in Hk. simpl in Hk. rewrite count_app in Hk. simpl in Hk.
    exists pre, mid, rest. rewrite remove_extra_uuid_cut by (done || lia).
    repeat split; try done.
    rewrite count_strip by done. rewrite !count_app. simpl. rewrite count_app. simpl. lia. }
  split; [apply remove_extra_uuid_few|]. split; [done|].
  intros H4. destruct Hcut as (? & ? & ? & _ & _ & _ & _ & ->); lia.
Qed.

Lemma remove_extra_uuid_spec_witness :
  Transfer.remove_extra_uuid (py "ab" ++ [EM] ++ py "x" ++ [EM])
    = py "ab" ++ [EM] ++ py "x" ++ [EM] ∧
  count EM (Transfer.remove_extra_uuid
              (py "ab" ++ [EM] ++ py "x" ++ [EM; EM] ++ py "y" ++ [EM])) = 2%nat.
Proof.
  split.
  - apply (remove_extra_uuid_spec (py "ab" ++ [EM] ++ py "x" ++ [EM])).
    vm_compute. lia.
  - apply (remove_extra_uuid_spec (py "ab" ++ [EM] ++ py "x" ++ [EM; EM] ++ py "y" ++ [EM])).
    reflexivity.
Defined.

(** C2, as stated, fails: three stacked anchors (six delimiters) are left
    with two anchors (four delimiters), and a line with three delimiters is
    left with one. *)
Lemma remove_extra_uuid_not_always_one_anchor :
  count EM (Transfer.remove_extra_uuid
              (py "t" ++ [EM] ++ py "a" ++ [EM; EM] ++ py "b" ++ [EM; EM] ++ py "c" ++ [EM]))
    = 4%nat ∧
  count EM (Transfer.remove_extra_uuid (py "t" ++ [EM] ++ py "a" ++ [EM] ++ py "b" ++ [EM]))
    = 1%nat.
Proof. split; reflexivity. Qed.

(** C4.  [add_missing_uuids] works on the lines of the trimmed document and
    tests each line once trimmed.  A line that then ends with the delimiter
    is left untouched, with the white space it has.  Any other line is
    replaced by its trimmed form followed by a delimiter, an identifier and
    a delimiter: for a line without surrounding white space the anchor is
    appended to the line itself.  The identifier is the 32 hexadecimal
    digits of a 128-bit number whose version and variant bits are fixed (the
    thirteenth digit is 4) and whose other 122 bits are those of a draw of
    the random source: two draws give the same identifier exactly when they
    agree on these bits.  The draw is fresh: it is not one taken before the
    call, and every later line takes a later one.  Nothing else enters the
    identifier, so it is not compared with the anchors already in the
    document. *)
Theorem add_missing_uuids_contract (urandom : nat → N) (dump : str) (n : nat) :
  ∃ lines',
    Transfer.add_missing_uuids urandom dump n
      = (join [NL] lines', (n + Transfer.missing (split NL (strip dump)))%nat) ∧
    length lines' = length (split NL (strip dump)) ∧
    ∀ i l, split NL (strip dump) !! i = Some l →
      let k := (n + Transfer.missing (take i (split NL (strip dump))))%nat in
      let draw := urandom k in
      let id := Uuid.hex32 (Uuid.uuid4_int draw) in
      Uuid.uuid4_int draw < 2 ^ 128 ∧
      length id = 32%nat ∧
      Forall (λ c, Uuid.is_hex c = true) id ∧
      lines' !! i = Some (if endswith (strip l) [EM] then l
                          else strip l ++ [EM] ++ id ++ [EM]) ∧
      (endswith l [EM] = true → lines' !! i = Some l) ∧
      (endswith l [EM] = false → strip l = l →
       lines' !! i = Some (l ++ [EM] ++ id ++ [EM])) ∧
      id !! 12%nat = Some 52 ∧
      (∀ r, Uuid.hex32 (Uuid.uuid4_int r) = id ↔ Uuid.same_random_bits r draw) ∧
      (n ≤ k)%nat ∧
      (endswith (strip l) [EM] = false →
       (k < n + Transfer.missing (split NL (strip dump)))%nat ∧
       ∀ j, (i < j)%nat →
            (k < n + Transfer.missing (take j (split NL (strip dump))))%nat).
Proof.
  destruct (add_missing_uuids_loop_spec urandom (split NL (strip dump)) n)
    as (lines' & E & Hlen & Hnth).
  exists lines'. split.
  - unfold Transfer.add_missing_uuids, mbind, gen_bind, mret, gen_ret. by rewrite E.
  - split; [done|]. intros i l Hl. cbv zeta.
    split; [apply uuid4_int_128|]. split; [apply hex32_length|].
    split; [apply hex32_is_hex|].
    specialize (Hnth i l Hl). unfold Transfer.anchored in Hnth.
    split; [done|]. split; [|split].
    + intros Hend. by rewrite (endswith_strip l EM) in Hnth.
    + intros Hend Hs. by rewrite Hs, Hend in Hnth.
    + split; [apply hex32_uuid4_version|]. split; [intros r; apply hex32_uuid4_eq|].
      split; [lia|]. intros Hend. split.
      * pose proof (missing_take_lt _ i (S i) l Hl Hend ltac:(lia)).
        pose proof (missing_take_le (split NL (strip dump)) (S i)). lia.
      * intros j Hj. pose proof (missing_take_lt _ i j l Hl Hend Hj). lia.
Qed.

Lemma add_missing_uuids_contract_witness :
  ∃ lines',
    Transfer.add_missing_uuids N.of_nat
      (py "ab" ++ [NL] ++ py "cd" ++ [EM] ++ py "x" ++ [EM; NL] ++ py "ef") 5%nat
    = (join [NL] lines', 7%nat) ∧
    lines' !! 2%nat = Some (py "ef" ++ [EM] ++ Uuid.hex32 (Uuid.uuid4_int 6) ++ [EM]) ∧
    Uuid.hex32 (Uuid.uuid4_int 6) !! 12%nat = Some 52.
Proof.
  destruct (add_missing_uuids_contract N.of_nat
              (py "ab" ++ [NL] ++ py "cd" ++ [EM] ++ py "x" ++ [EM; NL] ++ py "ef") 5%nat)
    as (lines' & E & _ & H).
  exists lines'. split; [exact E|].
  destruct (H 2%nat (py "ef") eq_refl) as (_ & _ & _ & _ & _ & Happ & Hv & _).
  split; [apply Happ; reflexivity | exact Hv].
Defined.

(** C4, as stated, fails on lines with white space.  A line that ends with
    white space after its anchor does not end with the delimiter, and is
    given no anchor; a line with white space before its text does not get
    the anchor appended to it, but is replaced by its trimmed form with the
    anchor. *)
Lemma add_missing_uuids_tests_trimmed_line :
  split NL (strip (py "ab" ++ [EM] ++ py "x" ++ [EM; SP; NL; SP] ++ py "cd"))
  = [py "ab" ++ [EM] ++ py "x" ++ [EM; SP]; [SP] ++ py "cd"] ∧
  endswith (py "ab" ++ [EM] ++ py "x" ++ [EM; SP]) [EM] = false ∧
  endswith ([SP] ++ py "cd") [EM] = false ∧
  Transfer.add_missing_uuids zero_source
    (py "ab" ++ [EM] ++ py "x" ++ [EM; SP; NL; SP] ++ py "cd") 0%nat
  = (join [NL] [py "ab" ++ [EM] ++ py "x" ++ [EM; SP];
                py "cd" ++ [EM] ++ Uuid.hex32 (Uuid.uuid4_int 0) ++ [EM]], 1%nat).
Proof. repeat split; vm_compute; reflexivity. Qed.

(** The new identifier is not checked against the document: when the random
    source repeats itself two lines get the same anchor, and a line can get
    the anchor another line already carries. *)
Lemma add_missing_uuids_no_uniqueness_check :
  let id := Uuid.hex32 (Uuid.uuid4_int 0) in
  (Transfer.add_missing_uuids zero_source
     (py "a" ++ [NL] ++ py "b" ++ [NL] ++ py "c" ++ [EM] ++ id ++ [EM]) 0%nat).1
  = py "a" ++ [EM] ++ id ++ [EM] ++ [NL] ++ py "b" ++ [EM] ++ id ++ [EM] ++ [NL]
    ++ py "c" ++ [EM] ++ id ++ [EM].
Proof. vm_compute. reflexivity. Qed.

(** C5.  On a document all of whose lines are anchored, [add_missing_uuids]
    draws no identifier and returns the document, trimmed as a whole: the
    document itself when it has no white space around it.  Applied to its
    result a second time it returns it unchanged. *)
Theorem add_missing_uuids_anchored_noop (urandom : nat → N) (dump : str) (n : nat) :
  Forall (λ l, Transfer.anchored l = true) (split NL (strip dump)) →
  Transfer.add_missing_uuids urandom dump n = (strip dump, n) ∧
  Transfer.add_missing_uuids urandom (strip dump) n = (strip dump, n) ∧
  (strip dump = dump → Transfer.add_missing_uuids urandom dump n = (dump, n)).
Proof.
  intros H.
  assert (E : ∀ d, strip d = strip dump →
                   Transfer.add_missing_uuids urandom d n = (strip dump, n)).
  { intros d Hd. unfold Transfer.add_missing_uuids, mbind, gen_bind, mret, gen_ret.
    rewrite Hd, add_missing_uuids_loop_anchored by done. by rewrite join_split. }
  split; [by apply E|]. split; [apply E, strip_idemp|].
  intros Hs. rewrite <- Hs at 2. by apply E.
Qed.

Lemma add_missing_uuids_anchored_noop_witness :
  Transfer.add_missing_uuids zero_source
    (py "ab" ++ [EM] ++ py "x" ++ [EM; NL] ++ py "cd" ++ [EM] ++ py "y" ++ [EM]) 0%nat
  = (py "ab" ++ [EM] ++ py "x" ++ [EM; NL] ++ py "cd" ++ [EM] ++ py "y" ++ [EM], 0%nat).
Proof.
  refine (proj1 (add_missing_uuids_anchored_noop zero_source
    (py "ab" ++ [EM] ++ py "x" ++ [EM; NL] ++ py "cd" ++ [EM] ++ py "y" ++ [EM]) 0%nat _)).
  repeat first [ apply Forall_nil_2 | apply Forall_cons_2; [reflexivity|] ].
Defined.

(** X25.  Assignment is idempotent on every document: the second
    application draws nothing and returns the result of the first. *)
Lemma add_missing_uuids_idempotent (urandom : nat → N) (dump : str) (n : nat) :
  let r := Transfer.add_missing_uuids urandom dump n in
  Transfer.add_missing_uuids urandom r.1 r.2 = r.
Proof.
  cbv zeta.
  pose proof (add_missing_uuids_lines urandom dump n) as Hl.
  pose proof (add_missing_uuids_loop_assigned urandom (split NL (strip dump)) n) as HA.
  unfold Transfer.add_missing_uuids at 1 3. unfold mbind, gen_bind, mret, gen_ret in *.
  rewrite Hl. unfold Transfer.add_missing_uuids, mbind, gen_bind, mret, gen_ret.
  destruct (Transfer.add_missing_uuids_loop urandom (split NL (strip dump)) n)
    as [lines' n'] eqn:E. simpl in *.
  rewrite add_missing_uuids_loop_anchored; [done|].
  clear -HA. induction HA as [|l l' ls ls' Hl _ IH]; [done|].
  constructor; [|done]. unfold Transfer.assigned in Hl.
  destruct (Transfer.anchored l) eqn:El; [by subst|].
  destruct Hl as (id & _ & ->).
  destruct (fresh_line_clean l id) as (? & ? & ?).
  unfold Transfer.anchored. by rewrite strip_clean.
Qed.

(** ** Glossary matching *)

Section Matching.

Import Glossary.

Lemma find_matches_matched entries segment :
  _find_matches entries segment = (matched entries segment).*2.
Proof.
  unfold matched. induction entries as [|[word v] rest IH]; [done|].
  rewrite filter_cons. simpl. unfold matches.
  destruct (left_anchored segment word), (right_anchored segment word),
    (interior segment word); simpl; by rewrite IH.
Qed.

Lemma matched_once (entries : dict) segment w :
  NoDup entries.*1 → w ∈ entries.*1 →
  length (filter (λ kv, kv.1 = w) (matched entries segment))
  = if matches segment w then 1%nat else 0%nat.
Proof.
  unfold matched. induction entries as [|[word v] rest IH].
  - by intros _ ?%elem_of_nil.
  - rewrite fmap_cons. intros [Hnotin Hnd]%NoDup_cons Hin.
    assert (Hrest : w ∉ rest.*1 →
              length (filter (λ kv, kv.1 = w)
                        (filter (λ kv, matches segment kv.1 = true) rest)) = 0%nat).
    { intros Hw.
      destruct (filter (λ kv, kv.1 = w) (filter _ rest)) as [|[w' v'] xs] eqn:E; [done|].
      exfalso. apply Hw.
      assert (Hx : (w', v') ∈ (w', v') :: xs) by left.
      rewrite <- E in Hx.
      apply list_elem_of_filter in Hx as [Hx1 [_ Hx2]%list_elem_of_filter].
      simpl in Hx1. subst w'. apply list_elem_of_fmap. by exists (w, v'). }
    rewrite filter_cons. simpl in *. destruct (decide (word = w)) as [->|Hne].
    + destruct (decide (matches segment w = true)) as [Hm|Hm].
      * rewrite Hm, filter_cons_True by done. simpl. by rewrite Hrest.
      * apply not_true_is_false in Hm. rewrite Hm. by apply Hrest.
    + apply elem_of_cons in Hin as [?|Hin]; [done|].
      destruct (decide (matches segment word = true)).
      * rewrite filter_cons_False by done. by apply IH.
      * by apply IH.
Qed.

Lemma find_matches_elem entries segment w v :
  (w, v) ∈ entries → matches segment w = true → v ∈ _find_matches entries segment.
Proof.
  intros Hin Hm. rewrite find_matches_matched. apply list_elem_of_fmap.
  exists (w, v). split; [done|]. by apply list_elem_of_filter.
Qed.

(** A line equal to the headword is too short for any of the three tests. *)
Lemma matches_self w : matches w w = false.
Proof.
  unfold matches, left_anchored, right_anchored, interior.
  repeat (apply orb_false_iff; split); apply not_true_is_false.
  - intros H%startswith_length. rewrite length_app in H. simpl in H. lia.
  - intros H%endswith_length. rewrite length_app in H. simpl in H. lia.
  - intros H%contains_length. rewrite !length_app in H. simpl in H. lia.
Qed.

End Matching.

(** C3, as amended.  The three conditions are tested in order, each only
    when the ones before it failed, so [_find_matches] appends the value of
    exactly the items for which at least one condition holds, in dict order;
    a headword is added once when it satisfies one condition or more, and
    not at all otherwise. *)
Theorem find_matches_once_per_headword
    (entries : Glossary.dict) (segment w : str) :
  NoDup entries.*1 → w ∈ entries.*1 →
  Glossary.find_entries entries segment
    = (Glossary.matched entries (Glossary.normalize segment)).*2 ∧
  length (filter (λ kv, kv.1 = w) (Glossary.matched entries (Glossary.normalize segment)))
    = if Glossary.matches (Glossary.normalize segment) w then 1%nat else 0%nat.
Proof.
  intros Hnd Hin. split; [apply find_matches_matched | by apply matched_once].
Qed.

Lemma find_matches_once_per_headword_witness :
  Glossary.find_entries [(py "a", ((py "a", py "1"), []))] (py "a a")
    = [((py "a", py "1"), [])] ∧
  length (filter (λ kv, kv.1 = py "a")
            (Glossary.matched [(py "a", ((py "a", py "1"), []))]
               (Glossary.normalize (py "a a")))) = 1%nat.
Proof.
  apply (find_matches_once_per_headword [(py "a", ((py "a", py "1"), []))]
           (py "a a") (py "a")).
  - apply NoDup_singleton.
  - apply list_elem_of_singleton. reflexivity.
Defined.

(** C3, as stated, fails: on the line "a a" the headword "a" satisfies two
    conditions (left-anchored and right-anchored), and is added once; testing
    the conditions independently would add it twice. *)
Lemma find_entries_not_once_per_condition :
  Glossary.satisfied (Glossary.normalize (py "a a")) (py "a") = 2%nat ∧
  Glossary.find_entries [(py "a", ((py "a", py "1"), []))] (py "a a")
    = [((py "a", py "1"), [])] ∧
  Glossary.find_matches_independent [(py "a", ((py "a", py "1"), []))]
      (Glossary.normalize (py "a a"))
    = [((py "a", py "1"), []); ((py "a", py "1"), [])].
Proof. repeat split; reflexivity. Qed.

(** C6.  For a dictionary that has the headword "blue", [find_entries]
    returns its entry on "the blue sky" (the interior condition holds), on
    "blue sky" (left-anchored) and on "sky blue" (right-anchored); on
    "lightblue sky" none of the conditions holds for "blue", which is not
    among the matched headwords. *)
Theorem find_entries_blue (entries : Glossary.dict) (v : Glossary.value) :
  (py "blue", v) ∈ entries →
  (Glossary.interior (py "the blue sky") (py "blue") = true ∧
   v ∈ Glossary.find_entries entries (py "the blue sky")) ∧
  (Glossary.left_anchored (py "blue sky") (py "blue") = true ∧
   v ∈ Glossary.find_entries entries (py "blue sky")) ∧
  (Glossary.right_anchored (py "sky blue") (py "blue") = true ∧
   v ∈ Glossary.find_entries entries (py "sky blue")) ∧
  (Glossary.matches (py "lightblue sky") (py "blue") = false ∧
   (py "blue" ∉ (Glossary.matched entries (Glossary.normalize (py "lightblue sky"))).*1) ∧
   Glossary.find_entries [(py "blue", v)] (py "lightblue sky") = []).
Proof.
  intros Hin. unfold Glossary.find_entries.
  repeat split; try reflexivity;
    try (eapply find_matches_elem; [exact Hin | reflexivity]).
  intros ([w v'] & E & [Hm _]%list_elem_of_filter)%list_elem_of_fmap.
  simpl in E. subst w. simpl in Hm. by vm_compute in Hm.
Qed.

Lemma find_entries_blue_witness :
  ((py "blue", py "1"), []) ∈
    Glossary.find_entries [(py "blue", ((py "blue", py "1"), []))] (py "the blue sky").
Proof.
  apply (find_entries_blue [(py "blue", ((py "blue", py "1"), []))]
           ((py "blue", py "1"), [])).
  apply list_elem_of_singleton. reflexivity.
Defined.

(** C9.  When the normalized line is exactly the headword, none of the
    three conditions holds for it: the line is shorter than each of the
    strings looked for, which carry a space more.  The headword is not among
    the matched ones, and a dictionary with that headword alone gives no
    match. *)
Theorem find_entries_exact_headword
    (entries : Glossary.dict) (segment w : str) (v : Glossary.value) :
  Glossary.normalize segment = w →
  Glossary.left_anchored (Glossary.normalize segment) w = false ∧
  Glossary.right_anchored (Glossary.normalize segment) w = false ∧
  Glossary.interior (Glossary.normalize segment) w = false ∧
  (w ∉ (Glossary.matched entries (Glossary.normalize segment)).*1) ∧
  Glossary.find_entries [(w, v)] segment = [].
Proof.
  intros <-. pose proof (matches_self (Glossary.normalize segment)) as H.
  unfold Glossary.matches in H.
  apply orb_false_iff in H as [[H1 H2]%orb_false_iff H3].
  repeat split; try done.
  - intros ([w' v'] & E & [Hm _]%list_elem_of_filter)%list_elem_of_fmap.
    simpl in E, Hm. subst w'. by rewrite matches_self in Hm.
  - unfold Glossary.find_entries. simpl. by rewrite H1, H2, H3.
Qed.

Lemma find_entries_exact_headword_witness :
  Glossary.find_entries [(py "blue", ((py "blue", py "1"), []))] (py "blue") = [].
Proof.
  apply (find_entries_exact_headword [] (py "blue") (py "blue") ((py "blue", py "1"), [])).
  reflexivity.
Defined.

(** ** Translation units and exports *)

Section Replace.

Lemma replace_char_cons x (s : str) c new :
  replace (x :: s) [c] new = (if decide (x = c) then new else [x]) ++ replace s [c] new.
Proof.
  unfold replace. simpl. rewrite andb_true_r.
  destruct (decide (x = c)) as [->|Hx].
  - by rewrite bool_decide_eq_true_2.
  - by rewrite bool_decide_eq_false_2 by congruence.
Qed.

Lemma replace_char_absent (s : str) c new : c ∉ s → replace s [c] new = s.
Proof.
  induction s as [|x s IH]; [done|]. intros [Hx Hs]%not_elem_of_cons.
  rewrite replace_char_cons, decide_False by congruence. by rewrite IH.
Qed.

Lemma replace_char_delete_length (s : str) c :
  (length (replace s [c] []) + count c s = length s)%nat.
Proof.
  induction s as [|x s IH]; [done|]. rewrite replace_char_cons.
  cbn [count length]. destruct (decide (x = c)); rewrite length_app; simpl; lia.
Qed.

Lemma replace_char_char_length (s : str) c d : length (replace s [c] [d]) = length s.
Proof.
  induction s as [|x s IH]; [done|]. rewrite replace_char_cons.
  destruct (decide (x = c)); rewrite length_app, IH; done.
Qed.

Lemma replace_char_char_gone (s : str) c d : c ≠ d → c ∉ replace s [c] [d].
Proof.
  intros Hcd. induction s as [|x s IH]; [apply not_elem_of_nil|].
  rewrite replace_char_cons.
  destruct (decide (x = c)); apply not_elem_of_app; split; try done;
    apply not_elem_of_cons; (split; [congruence | apply not_elem_of_nil]).
Qed.

(** The text [extract_entries] rebuilds is the msgid exactly when the
    msgid has no space and no U+1680. *)
Lemma reconstruct_same_iff (text : str) :
  replace (replace text [SP] []) [OGHAM] [SP] = text ↔ (SP ∉ text) ∧ (OGHAM ∉ text).
Proof.
  split.
  - intros E.
    assert (Hsp : SP ∉ text).
    { apply count_zero.
      pose proof (replace_char_delete_length text SP) as H1.
      pose proof (replace_char_char_length (replace text [SP] []) OGHAM SP) as H2.
      rewrite E in H2. lia. }
    split; [done|]. rewrite (replace_char_absent text SP) in E by done.
    rewrite <- E. by apply replace_char_char_gone.
  - intros [Hsp Hog].
    rewrite (replace_char_absent text SP) by done. by apply replace_char_absent.
Qed.

End Replace.

(** C7, as amended.  A unit created from (text, context, comment) has an
    empty translation, and the reconstruction step gives back, for it, the
    context and the text with every space removed and every U+1680 turned
    into a space: the same text exactly when it has neither. *)
Theorem create_entry_then_reconstruct
    (file : POFile) (text ctxt comment : str) :
  let file' := PoA._create_entry file text None (Some ctxt) None (Some comment) in
  (msgstr <$> last file') = Some [] ∧
  last (Transfer.po_entries file')
    = Some (replace (replace text [SP] []) [OGHAM] [SP], Some ctxt) ∧
  (last (Transfer.po_entries file') = Some (text, Some ctxt)
   ↔ (SP ∉ text) ∧ (OGHAM ∉ text)).
Proof.
  cbv zeta. unfold PoA._create_entry, Transfer.po_entries.
  rewrite fmap_app. simpl. rewrite !last_snoc. simpl.
  split; [done|]. split; [done|]. split.
  - intros [= E]. by apply reconstruct_same_iff.
  - intros H%reconstruct_same_iff. by rewrite H.
Qed.

(** C7, as stated, fails: the text "a b" comes back as "ab". *)
Lemma reconstruct_drops_spaces :
  last (Transfer.po_entries
          (PoA._create_entry [] (py "a b") None (Some (py "id")) None (Some (py "note"))))
    = Some (py "ab", Some (py "id")) ∧
  py "ab" ≠ py "a b".
Proof. split; [reflexivity | discriminate]. Qed.

Section Exports.

Lemma join_rows {A} (sep : str) (f g : A → str) (l : list A) :
  join sep (l ≫= λ e, [f e; g e]) = join sep ((λ e, f e ++ sep ++ g e) <$> l).
Proof.
  induction l as [|x l IH]; [done|].
  rewrite bind_cons, fmap_cons. destruct l as [|y l]; [done|].
  rewrite fmap_cons in *. rewrite bind_cons in *.
  change (f x ++ sep ++ g x ++ sep ++ join sep ([f y; g y] ++ l ≫= λ e, [f e; g e])
          = (f x ++ sep ++ g x) ++ sep
            ++ join sep ((f y ++ sep ++ g y) :: ((λ e, f e ++ sep ++ g e) <$> l))).
  rewrite IH. by rewrite <- !app_assoc.
Qed.

Lemma export_text_no_NL entry : NL ∉ PoB.export_text entry.
Proof. unfold PoB.export_text. by apply replace_char_char_gone. Qed.

End Exports.



(** C10.  When the paragraph copy exists and is not one of the two files
    written before it (the input file is not in [copy_folder]; the script
    takes it from [folder]), [write_txt] compares the copy, its triple
    newlines collapsed to one, with the line-and-translation export.  If
    they are equal the copy is not written and keeps its content; if they
    differ it is rewritten with the result of [_update_pars]. *)
Theorem write_txt_pars_frame
    (transfer : str → list (str * str) → str → str → str)
    (self : PoB.Po) (s : fs) (pars_old : str) :
  PoB.parent self ≠ PoB.copy_folder →
  files s !! PoB.pars_path self = Some pars_old →
  let orig_trans := (PoB.format_entries (PoB.file self)).1.1 in
  let s' := PoB.write_txt transfer self s in
  (replace pars_old [NL; NL; NL] [NL] = orig_trans →
     files s' !! PoB.pars_path self = Some pars_old ∧
     written s' = written s ++ [PoB.bitext_path self; PoB.translation_path self]) ∧
  (replace pars_old [NL; NL; NL] [NL] ≠ orig_trans →
     files s' !! PoB.pars_path self
       = Some (PoB._update_pars transfer pars_old orig_trans) ∧
     written s' = written s ++ [PoB.bitext_path self; PoB.translation_path self;
                                PoB.pars_path self]).
Proof.
  intros Hdir Hold. cbv zeta. unfold PoB.write_txt.
  destruct (PoB.format_entries (PoB.file self)) as [[orig_trans trans] pars_trans].
  assert (Hread : read_text (PoB.pars_path self)
            (write_text (PoB.translation_path self) trans
               (write_text (PoB.bitext_path self) orig_trans s)) = Some pars_old).
  { unfold read_text, write_text. simpl.
    rewrite !lookup_insert_ne; [done| |]; intros E%(f_equal fst); by apply Hdir. }
  rewrite Hread. simpl. split; intros Hcmp.
  - rewrite decide_False by (by intros ?). split.
    + apply Hread.
    + simpl. by rewrite <- app_assoc.
  - rewrite decide_True by done. split.
    + simpl. by rewrite lookup_insert_eq.
    + simpl. by rewrite <- !app_assoc.
Qed.

Lemma write_txt_pars_frame_witness :
  files (PoB.write_txt transfer_unmarked
           {| PoB.parent := PoB.folder; PoB.stem := py "ch1";
              PoB.file := [ {| msgid := py "ab"; msgstr := py "x"; msgctxt := None;
                               comment := None; tcomment := None |} ] |}
           {| files := {[ (PoB.copy_folder, py "ch1.txt") := py "ab" ++ [NL; TAB] ++ py "x" ]};
              written := [] |})
    !! (PoB.copy_folder, py "ch1.txt")
  = Some (py "ab" ++ [NL; TAB] ++ py "x").
Proof.
  refine (proj1 (proj1 (write_txt_pars_frame transfer_unmarked
           {| PoB.parent := PoB.folder; PoB.stem := py "ch1";
              PoB.file := [ {| msgid := py "ab"; msgstr := py "x"; msgctxt := None;
                               comment := None; tcomment := None |} ] |}
           {| files := {[ (PoB.copy_folder, py "ch1.txt") := py "ab" ++ [NL; TAB] ++ py "x" ]};
              written := [] |}
           (py "ab" ++ [NL; TAB] ++ py "x") _ _) _)).
  - discriminate.
  - apply lookup_singleton_eq.
  - reflexivity.
Defined.

(** * The rest of the code *)

(** ** The regular expressions *)

Section RegexFacts.

Import Regex.

Lemma lazy_until_sound : body_sound lazy_until.
Proof.
  intros c s. induction s as [|x s IH]; intros inside after; simpl; [done|].
  destruct (decide (x = c)) as [->|Hx]; [by intros [= <- <-]|].
  destruct (decide (x = NL)); [done|].
  destruct (lazy_until c s) as [[i a]|]; [|done].
  intros [= <- <-]. by rewrite (IH i a).
Qed.

Lemma lazy_plus_until_sound : body_sound lazy_plus_until.
Proof.
  intros c [|x s] inside after; simpl; [done|].
  destruct (decide (x = NL)); [done|].
  destruct (lazy_until c s) as [[i a]|] eqn:E; [|done].
  intros [= <- <-]. by rewrite (lazy_until_sound c s i a).
Qed.

Lemma lazy_until_found c (inside after : str) :
  c ∉ inside → NL ∉ inside → lazy_until c (inside ++ c :: after) = Some (inside, after).
Proof.
  induction inside as [|x inside IH]; simpl.
  - intros _ _. by rewrite decide_True.
  - intros [Hx Hc]%not_elem_of_cons [Hn Hnl]%not_elem_of_cons.
    rewrite decide_False by congruence. rewrite decide_False by congruence.
    by rewrite IH.
Qed.

Lemma lazy_until_none c (s : str) : c ∉ s → lazy_until c s = None.
Proof.
  induction s as [|x s IH]; simpl; [done|].
  intros [Hx Hs]%not_elem_of_cons. rewrite decide_False by congruence.
  destruct (decide (x = NL)); [done|]. by rewrite IH.
Qed.

(** The pieces, put together again, are the string. *)
Lemma scan_from_join o c body (s cur : str) k :
  body_sound body →
  mjoin (piece_str <$> scan_from o c body s cur k) = cur ++ drop k s.
Proof.
  intros Hb. revert cur k. induction s as [|x s IH]; intros cur k.
  - simpl. by rewrite drop_nil, !app_nil_r.
  - destruct k as [|k]; [|simpl; by rewrite IH].
    cbn [scan_from]. rewrite drop_0.
    destruct (decide (x = o)) as [->|Hx].
    + destruct (body c s) as [[inside after]|] eqn:E.
      * apply Hb in E. rewrite !fmap_cons. cbn [piece_str mjoin list_join].
        rewrite IH. rewrite E.
        rewrite (cons_middle c inside after), (assoc_L (++) inside [c]).
        rewrite drop_app_length' by (rewrite length_app; simpl; lia).
        simpl. by rewrite <- !app_assoc.
      * rewrite IH, drop_0. by rewrite <- app_assoc.
    + rewrite IH, drop_0. by rewrite <- app_assoc.
Qed.

Lemma re_split_join o c body (s : str) :
  body_sound body → mjoin (re_split o c body s) = s.
Proof. intros Hb. unfold re_split, scan. by rewrite scan_from_join. Qed.

(** Without the opening character, or without a closing one, there is no
    match. *)
Lemma scan_from_no_open o c body (s cur : str) :
  o ∉ s → scan_from o c body s cur 0 = [Text (cur ++ s)].
Proof.
  revert cur. induction s as [|x s IH]; intros cur; simpl.
  - intros _. by rewrite app_nil_r.
  - intros [Hx Hs]%not_elem_of_cons. rewrite decide_False by congruence.
    rewrite IH by done. by rewrite <- app_assoc.
Qed.

Lemma scan_from_no_close o c (s cur : str) :
  c ∉ s → scan_from o c lazy_until s cur 0 = [Text (cur ++ s)].
Proof.
  revert cur. induction s as [|x s IH]; intros cur; simpl.
  - intros _. by rewrite app_nil_r.
  - intros [Hx Hs]%not_elem_of_cons.
    destruct (decide (x = o)); rewrite ?lazy_until_none by done;
      rewrite IH by done; by rewrite <- app_assoc.
Qed.

(** The text before the first opening character is gathered as it is. *)
Lemma scan_from_prefix o c body (pre s cur : str) :
  o ∉ pre → scan_from o c body (pre ++ s) cur 0 = scan_from o c body s (cur ++ pre) 0.
Proof.
  revert cur. induction pre as [|x pre IH]; intros cur; simpl.
  - intros _. by rewrite app_nil_r.
  - intros [Hx Hs]%not_elem_of_cons. rewrite decide_False by congruence.
    rewrite IH by done. by rewrite <- app_assoc.
Qed.

(** Passing the characters of a match. *)
Lemma scan_from_skip o c body (pre s cur : str) :
  scan_from o c body (pre ++ s) cur (length pre) = scan_from o c body s cur 0.
Proof. induction pre as [|x pre IH]; simpl; [by destruct s | done]. Qed.

(** A first match [o inside c], then the rest. *)
Lemma scan_from_match o c (pre inside post cur : str) :
  o ∉ pre → c ∉ inside → NL ∉ inside →
  scan_from o c lazy_until (pre ++ o :: inside ++ c :: post) cur 0
  = Text (cur ++ pre) :: Match (o :: inside ++ [c]) :: scan_from o c lazy_until post [] 0.
Proof.
  intros Hpre Hc Hnl. rewrite scan_from_prefix by done. cbn [scan_from].
  rewrite decide_True by done. rewrite lazy_until_found by done.
  do 2 f_equal.
  replace (inside ++ c :: post) with ((inside ++ [c]) ++ post)
    by (by rewrite <- app_assoc).
  replace (S (length inside)) with (length (inside ++ [c]))
    by (rewrite length_app; simpl; lia).
  apply scan_from_skip.
Qed.

End RegexFacts.

(** ** Notes and pagination *)

Section Notes.

Import Regex.

Lemma filter_all {A} (P : A → Prop) `{!∀ x, Decision (P x)} (l : list A) :
  Forall P l → filter P l = l.
Proof.
  induction 1 as [|x l Hx _ IH]; [done|]. by rewrite filter_cons_True, IH.
Qed.

Lemma startswith_head (a : str) x (p : str) : startswith a (x :: p) = true → x ∈ a.
Proof. intros [k ->]%startswith_prefix. left. Qed.

Lemma startswith_absent (a : str) x (p : str) : x ∉ a → startswith a (x :: p) = false.
Proof.
  intros Hx. apply not_true_is_false. by intros ?%startswith_head.
Qed.

Lemma replace_char_delete_gone (s : str) c : c ∉ replace s [c] [].
Proof.
  induction s as [|x s IH]; [apply not_elem_of_nil|].
  rewrite replace_char_cons. destruct (decide (x = c)); [done|].
  apply not_elem_of_cons. split; [congruence | done].
Qed.

(** The pieces of a split hold characters of the line only. *)
Lemma re_split_pieces o c body (line a : str) x :
  body_sound body → a ∈ re_split o c body line → x ∈ a → x ∈ line.
Proof.
  intros Hb Ha Hx. rewrite <- (re_split_join o c body line Hb).
  apply list_elem_of_join. by exists a.
Qed.

Lemma remove_peydurma_notes_none (line : str) :
  (LT ∉ line) ∨ (GT ∉ line) → PoLines.remove_peydurma_notes line = [].
Proof.
  unfold PoLines.remove_peydurma_notes, re_split, scan.
  intros [H|H]; [rewrite scan_from_no_open by done | rewrite scan_from_no_close by done];
    done.
Qed.

Lemma remove_peydurma_notes_one (pre inside post : str) :
  LT ∉ pre → LT ∉ post → GT ∉ inside → NL ∉ inside →
  PoLines.remove_peydurma_notes (pre ++ [LT] ++ inside ++ [GT] ++ post)
  = replace (pre ++ post) [COLON] [].
Proof.
  intros Hpre Hpost Hin Hnl.
  unfold PoLines.remove_peydurma_notes, re_split, scan.
  change (pre ++ [LT] ++ inside ++ [GT] ++ post) with (pre ++ LT :: inside ++ GT :: post).
  rewrite scan_from_match by done. rewrite scan_from_no_open by done.
  cbn -[startswith replace filter].
  rewrite !filter_cons, filter_nil.
  rewrite (startswith_absent pre LT []) by done.
  rewrite (startswith_absent post LT []) by done.
  cbn -[replace]. repeat case_decide; try lia; try done.
  cbn -[replace]. by rewrite app_nil_r.
Qed.

End Notes.

(** X1.  [remove_pagination] removes nothing.  It drops the pieces that
    start with a backslash followed by a bracket, which a bracketed note
    does not: for a line without backslash it returns the line whole, the
    bracketed notes still in it, or the empty string when the line has no
    such note. *)
Theorem remove_pagination_keeps_brackets (line : str) :
  BACKSLASH ∉ line →
  (PoLines.remove_pagination line = line ∨ PoLines.remove_pagination line = []) ∧
  (LBRACKET ∉ line → PoLines.remove_pagination line = []) ∧
  (∀ pre inside post,
     line = pre ++ [LBRACKET] ++ inside ++ [RBRACKET] ++ post →
     LBRACKET ∉ pre → RBRACKET ∉ inside → NL ∉ inside →
     PoLines.remove_pagination line = line).
Proof.
  intros Hbs.
  assert (Hkeep : mjoin (filter (λ a, startswith a [BACKSLASH; LBRACKET] = false)
                           (Regex.re_split LBRACKET RBRACKET Regex.lazy_until line)) = line).
  { rewrite filter_all; [by apply re_split_join, lazy_until_sound|].
    apply Forall_forall. intros a Ha. apply startswith_absent. intros Hx.
    apply Hbs. eapply re_split_pieces; [apply lazy_until_sound|done..]. }
  unfold PoLines.remove_pagination. split; [|split].
  - destruct (decide _); [left | right]; done.
  - intros Ho. unfold Regex.re_split, Regex.scan.
    by rewrite scan_from_no_open.
  - intros pre inside post E Hpre Hin Hnl.
    rewrite decide_True; [done|].
    rewrite E. unfold Regex.re_split, Regex.scan. simpl.
    rewrite scan_from_match by done. simpl. lia.
Qed.

Lemma remove_pagination_keeps_brackets_witness :
  PoLines.remove_pagination (py "ab[12]cd") = py "ab[12]cd".
Proof.
  refine (proj2 (proj2 (remove_pagination_keeps_brackets (py "ab[12]cd") _))
            (py "ab") (py "12") (py "cd") _ _ _ _).
  - by intros H%list_elem_of_In; vm_compute in H; intuition discriminate.
  - reflexivity.
  - by intros H%list_elem_of_In; vm_compute in H; intuition discriminate.
  - by intros H%list_elem_of_In; vm_compute in H; intuition discriminate.
  - by intros H%list_elem_of_In; vm_compute in H; intuition discriminate.
Defined.

(** X2.  [remove_peydurma_notes] never returns a colon; it returns the
    empty string for a line without "<" or without ">"; for a line with one
    note it returns what is around the note, without the colons. *)
Theorem remove_peydurma_notes_spec (line : str) :
  (COLON ∉ PoLines.remove_peydurma_notes line) ∧
  ((LT ∉ line) ∨ (GT ∉ line) → PoLines.remove_peydurma_notes line = []) ∧
  (∀ pre inside post,
     line = pre ++ [LT] ++ inside ++ [GT] ++ post →
     LT ∉ pre → LT ∉ post → GT ∉ inside → NL ∉ inside →
     PoLines.remove_peydurma_notes line = replace (pre ++ post) [COLON] []).
Proof.
  split; [|split].
  - unfold PoLines.remove_peydurma_notes.
    destruct (decide _); [apply replace_char_delete_gone | apply not_elem_of_nil].
  - apply remove_peydurma_notes_none.
  - intros pre inside post -> Hpre Hpost Hin Hnl. by apply remove_peydurma_notes_one.
Qed.

Lemma remove_peydurma_notes_spec_witness :
  PoLines.remove_peydurma_notes (py "ab<n:1>c:d") = py "abcd".
Proof.
  refine (eq_trans (proj2 (proj2 (remove_peydurma_notes_spec (py "ab<n:1>c:d")))
            (py "ab") (py "n:1") (py "c:d") _ _ _ _ _) _).
  - reflexivity.
  - by intros H%list_elem_of_In; vm_compute in H; intuition discriminate.
  - by intros H%list_elem_of_In; vm_compute in H; intuition discriminate.
  - by intros H%list_elem_of_In; vm_compute in H; intuition discriminate.
  - by intros H%list_elem_of_In; vm_compute in H; intuition discriminate.
  - reflexivity.
Defined.

(** X3.  The text [lines_to_entries] segments: a line without "<" and
    without "[" is taken as it is; and so is a line that is nothing but one
    note, since the empty result of [remove_peydurma_notes] makes the loop
    fall back on the whole line. *)
Theorem strip_notes_plain_or_note_only (line : str) :
  LBRACKET ∉ line →
  (LT ∉ line → PoLines.strip_notes line = line) ∧
  (∀ inside, line = [LT] ++ inside ++ [GT] → GT ∉ inside → NL ∉ inside →
             PoLines.strip_notes line = line).
Proof.
  intros Hbr.
  assert (Hdel : Regex.re_delete LBRACKET RBRACKET Regex.lazy_plus_until line = line).
  { unfold Regex.re_delete, Regex.scan. rewrite scan_from_no_open by done.
    simpl. by rewrite app_nil_r. }
  unfold PoLines.strip_notes. split.
  - intros Hlt. rewrite remove_peydurma_notes_none by by left.
    by rewrite decide_True.
  - intros inside -> Hgt Hnl.
    pose proof (remove_peydurma_notes_one [] inside [] (not_elem_of_nil _)
                  (not_elem_of_nil _) Hgt Hnl) as E.
    change ([] ++ [LT] ++ inside ++ [GT] ++ []) with ([LT] ++ inside ++ [GT]) in E.
    rewrite E. by rewrite decide_True.
Qed.

Lemma strip_notes_plain_or_note_only_witness :
  PoLines.strip_notes (py "<n>") = py "<n>".
Proof.
  refine (proj2 (strip_notes_plain_or_note_only (py "<n>") _) (py "n") _ _ _).
  - by intros H%list_elem_of_In; vm_compute in H; intuition discriminate.
  - reflexivity.
  - by intros H%list_elem_of_In; vm_compute in H; intuition discriminate.
  - by intros H%list_elem_of_In; vm_compute in H; intuition discriminate.
Defined.

(** ** Segmentation *)

Section SegmentFacts.

Import Segment.

Lemma mark_affixed_three c1 sp c2 (rest : str) :
  mark_affixed (c1 :: sp :: c2 :: rest)
  = if plain c1 && bool_decide (sp = SP) && plain c2
    then c1 :: OPENBOX :: c2 :: mark_affixed rest
    else c1 :: mark_affixed (sp :: c2 :: rest).
Proof. reflexivity. Qed.

(** Marking changes spaces only, into the affix marker. *)
Lemma mark_affixed_pointwise (s : str) :
  Forall2 (λ a b, b = a ∨ (a = SP ∧ b = OPENBOX)) s (mark_affixed s).
Proof.
  assert (H : ∀ n (s : str), (length s ≤ n)%nat →
                Forall2 (λ a b, b = a ∨ (a = SP ∧ b = OPENBOX)) s (mark_affixed s)).
  { intros n. induction n as [|n IH]; intros [|c1 t] Hlen; try constructor;
      simpl in Hlen; try lia.
    destruct t as [|sp [|c2 rest]].
    - constructor; [by left | constructor].
    - constructor; [by left|]. constructor; [by left | constructor].
    - rewrite mark_affixed_three.
      destruct (plain c1 && bool_decide (sp = SP) && plain c2) eqn:E.
      + apply andb_true_iff in E as [[_ Hsp%bool_decide_eq_true]%andb_true_iff _].
        constructor; [by left|]. constructor; [by right|]. constructor; [by left|].
        apply IH. simpl in *. lia.
      + constructor; [by left|]. apply IH. simpl in *. lia. }
  by apply (H (length s)).
Qed.

Lemma replace_char_char_pointwise (s : str) c d :
  Forall2 (λ a b, b = if decide (a = c) then d else a) s (replace s [c] [d]).
Proof.
  induction s as [|x s IH]; [constructor|]. rewrite replace_char_cons.
  destruct (decide (x = c)) as [->|Hx]; constructor; try done.
  - by rewrite decide_True.
  - by rewrite decide_False.
Qed.

Lemma Forall2_compose {A B C} (R1 : A → B → Prop) (R2 : B → C → Prop) l k m :
  Forall2 R1 l k → Forall2 R2 k m → Forall2 (λ a c, ∃ b, R1 a b ∧ R2 b c) l m.
Proof.
  intros H. revert m. induction H as [|a b l k Hab _ IH]; intros m Hm.
  - inversion Hm. constructor.
  - inversion Hm; subst. constructor; [by exists b | by apply IH].
Qed.

End SegmentFacts.

(** X4.  [segment_in_words] only rewrites separators of the tokenizer's
    output: the result has the same length, and differs from it only where
    a space became the affix marker U+2423 or an underscore became U+1680.
    No underscore is left. *)
Theorem segment_in_words_pointwise (tokenize : str → str) (string : str) :
  Forall2 (λ a b, b = a ∨ (a = SP ∧ b = OPENBOX) ∨ (a = UNDERSCORE ∧ b = OGHAM))
    (tokenize string) (Segment.segment_in_words tokenize string) ∧
  length (Segment.segment_in_words tokenize string) = length (tokenize string) ∧
  (UNDERSCORE ∉ Segment.segment_in_words tokenize string).
Proof.
  assert (H : Forall2 (λ a b, b = a ∨ (a = SP ∧ b = OPENBOX) ∨ (a = UNDERSCORE ∧ b = OGHAM))
                (tokenize string) (Segment.segment_in_words tokenize string)).
  { unfold Segment.segment_in_words.
    eapply Forall2_impl.
    - eapply Forall2_compose;
        [apply mark_affixed_pointwise | apply (replace_char_char_pointwise _ UNDERSCORE OGHAM)].
    - intros a b (m & [->|[-> ->]] & ->).
      + destruct (decide (a = UNDERSCORE)); [right; by right | by left].
      + right. left. by rewrite decide_False. }
  split; [done|]. split; [symmetry; by eapply Forall2_length|].
  unfold Segment.segment_in_words. by apply replace_char_char_gone.
Qed.

(** ** More on matching *)

Section MatchingMore.

Import Glossary.

Lemma contains_infix (sub s : str) :
  contains sub s = true ↔ ∃ pre post, s = pre ++ sub ++ post.
Proof.
  induction s as [|x s IH]; simpl.
  - rewrite orb_false_r, startswith_prefix. split.
    + intros [k E]. by exists [], k.
    + intros (pre & post & E). destruct pre; [by exists post|done].
  - rewrite orb_true_iff, startswith_prefix, IH. split.
    + intros [[k E]|(pre & post & ->)]; [by exists [], k | by exists (x :: pre), post].
    + intros ([|y pre] & post & E); [left; by exists post|].
      injection E as -> ->. right. by exists pre, post.
Qed.

(** X26.  The three conditions together say that the headword stands
    between two spaces in the line put between two spaces, the line that is
    the headword alone left out. *)
Theorem matches_padded (segment word : str) :
  matches segment word = true ↔
  ∃ pre post, ¬ (pre = [] ∧ post = []) ∧
              [SP] ++ segment ++ [SP] = pre ++ [SP] ++ word ++ [SP] ++ post.
Proof.
  unfold matches, left_anchored, right_anchored, interior.
  rewrite !orb_true_iff, startswith_prefix, endswith_suffix, contains_infix. split.
  - intros [[[k ->]|[k ->]]|(a & b & ->)].
    + exists [], (k ++ [SP]). split; [intros [_ ?]; by destruct k|].
      by repeat (progress (simpl; rewrite <- ?app_assoc)).
    + exists ([SP] ++ k), []. split; [by intros [? _]|].
      by repeat (progress (simpl; rewrite <- ?app_assoc)).
    + exists ([SP] ++ a), (b ++ [SP]). split; [by intros [? _]|].
      by repeat (progress (simpl; rewrite <- ?app_assoc)).
  - intros (pre & post & Hne & E).
    destruct post as [|x post _] using rev_ind.
    + destruct pre as [|p pre]; [by destruct Hne|].
      left. right. exists pre. simpl in E. injection E as <- E.
      replace (pre ++ SP :: word ++ [SP]) with ((pre ++ [SP] ++ word) ++ [SP]) in E
        by (by repeat (progress (simpl; rewrite <- ?app_assoc))).
      by apply app_inj_tail in E as [-> _].
    + destruct pre as [|p pre].
      * left. left. exists post. simpl in E. injection E as E.
        replace (word ++ SP :: post ++ [x]) with (((word ++ [SP]) ++ post) ++ [x]) in E
          by (by repeat (progress (simpl; rewrite <- ?app_assoc))).
        by apply app_inj_tail in E as [-> _].
      * right. exists pre, post. simpl in E. injection E as <- E.
        replace (pre ++ SP :: word ++ SP :: post ++ [x])
          with ((pre ++ ([SP] ++ word ++ [SP]) ++ post) ++ [x]) in E
          by (by repeat (progress (simpl; rewrite <- ?app_assoc))).
        by apply app_inj_tail in E as [-> _].
Qed.

(** A matched headword lies in the line, and the line has a space. *)
Lemma matches_chars (segment word : str) :
  matches segment word = true → (SP ∈ segment) ∧ ∀ x, x ∈ word → x ∈ segment.
Proof.
  unfold matches, left_anchored, right_anchored, interior.
  rewrite !orb_true_iff, startswith_prefix, endswith_suffix, contains_infix.
  intros [[[k ->]|[k ->]]|(a & b & ->)]; split; intros;
    rewrite ?elem_of_app, ?list_elem_of_singleton; tauto.
Qed.

Lemma find_matches_none entries segment :
  (∀ w, w ∈ entries.*1 → matches segment w = false) → _find_matches entries segment = [].
Proof.
  intros H. rewrite find_matches_matched. unfold matched.
  induction entries as [|[w v] rest IH]; [done|].
  rewrite filter_cons_False.
  - apply IH. intros w' Hw'. apply H. rewrite fmap_cons. by right.
  - simpl. rewrite H; [done|]. rewrite fmap_cons. by left.
Qed.

(** What [replace] returns is made of the string and of the new text, and
    keeps the characters that are not in the old text. *)
Lemma replace_from_elem (old new s : str) k x :
  x ∈ replace_from old new s k → x ∈ s ∨ x ∈ new.
Proof.
  revert k. induction s as [|c s IH]; intros k; simpl; [by left|].
  destruct k as [|k].
  - destruct (startswith (c :: s) old).
    + intros [?|[?|?]%IH]%elem_of_app; [by right | left; by right | by right].
    + intros [->|[?|?]%IH]%elem_of_cons; [left; by left | left; by right | by right].
  - intros [?|?]%IH; [left; by right | by right].
Qed.

Lemma replace_elem (s old new : str) x :
  old ≠ [] → x ∈ replace s old new → x ∈ s ∨ x ∈ new.
Proof. destruct old; [done|]. intros _. apply replace_from_elem. Qed.

Lemma replace_from_keeps (old new s : str) k x :
  old ≠ [] → x ∉ old → x ∈ drop k s → x ∈ replace_from old new s k.
Proof.
  intros Hne Hx. revert k. induction s as [|c s IH]; intros k.
  - by rewrite drop_nil.
  - destruct k as [|k]; [|apply IH].
    rewrite drop_0. intros Hin. cbn [replace_from].
    destruct (startswith (c :: s) old) eqn:E.
    + apply elem_of_app. right. apply IH.
      apply startswith_prefix in E as [rest E].
      destruct old as [|o old]; [done|]. simpl in E. injection E as -> ->.
      simpl. rewrite Nat.sub_0_r, drop_app_length.
      apply elem_of_cons in Hin as [->|Hin]; [exfalso; apply Hx; by left|].
      apply elem_of_app in Hin as [Hin|Hin]; [|done].
      exfalso. apply Hx. by right.
    + apply elem_of_cons in Hin as [->|Hin]; [by left|]. right. apply IH.
      by rewrite drop_0.
Qed.

Lemma replace_keeps (s old new : str) x :
  old ≠ [] → x ∉ old → x ∈ s → x ∈ replace s old new.
Proof.
  intros Hne Hx Hin. destruct old as [|o old]; [done|].
  apply replace_from_keeps; [done..|]. by rewrite drop_0.
Qed.

(** The normalized line holds neither marker. *)
Lemma normalize_no_markers (segment : str) :
  (OGHAM ∉ normalize segment) ∧ (OPENBOX ∉ normalize segment).
Proof.
  unfold normalize. split; [by apply replace_char_char_gone|].
  intros [H|H]%replace_elem; [|by apply list_elem_of_singleton in H|done].
  apply replace_elem in H as [H|H]; [|by apply list_elem_of_singleton in H|done].
  by apply (replace_char_char_gone segment OPENBOX SP) in H.
Qed.

End MatchingMore.

(** X5.  A line in which no space is left after normalization, the empty
    line among them, matches no headword: every condition looks for a space
    next to the headword. *)
Theorem find_entries_needs_space (entries : Glossary.dict) (segment : str) :
  SP ∉ Glossary.normalize segment → Glossary.find_entries entries segment = [].
Proof.
  intros Hsp. apply find_matches_none. intros w _.
  apply not_true_is_false. intros [? _]%matches_chars. done.
Qed.

Lemma find_entries_needs_space_witness :
  Glossary.find_entries [(py "blue", ((py "blue", py "1"), []))] [] = [].
Proof.
  apply (find_entries_needs_space [(py "blue", ((py "blue", py "1"), []))] []).
  by intros H%list_elem_of_In; vm_compute in H.
Defined.

(** X6.  A headword that holds U+1680 or U+2423 is never matched, whatever
    the line: normalization leaves neither character in the line, and a
    matched headword is part of the line. *)
Theorem find_entries_marker_headword
    (entries : Glossary.dict) (segment w : str) :
  (OGHAM ∈ w) ∨ (OPENBOX ∈ w) →
  Glossary.matches (Glossary.normalize segment) w = false ∧
  (w ∉ (Glossary.matched entries (Glossary.normalize segment)).*1).
Proof.
  intros Hw.
  assert (Hm : Glossary.matches (Glossary.normalize segment) w = false).
  { apply not_true_is_false. intros [_ Hin]%matches_chars.
    destruct (normalize_no_markers segment) as [Ho Hb].
    destruct Hw as [Hw|Hw]; [apply Ho | apply Hb]; by apply Hin. }
  split; [done|].
  intros ([w' v'] & E & [Hm' _]%list_elem_of_filter)%list_elem_of_fmap.
  simpl in E, Hm'. subst w'. by rewrite Hm in Hm'.
Qed.

Lemma find_entries_marker_headword_witness :
  Glossary.matches (Glossary.normalize (py "a " ++ [98; OGHAM; 99] ++ py " d"))
    [98; OGHAM; 99] = false.
Proof.
  refine (proj1 (find_entries_marker_headword []
            (py "a " ++ [98; OGHAM; 99] ++ py " d") [98; OGHAM; 99] _)).
  left. right. left.
Defined.

(** X7.  The matches come in the order of the dictionary, each item of it
    giving at most one: the result is a sublist of the values of the
    dictionary. *)
Theorem find_entries_sublist (entries : Glossary.dict) (segment : str) :
  Glossary.find_entries entries segment `sublist_of` entries.*2 ∧
  (length (Glossary.find_entries entries segment) ≤ length entries)%nat.
Proof.
  assert (H : Glossary.find_entries entries segment `sublist_of` entries.*2).
  { unfold Glossary.find_entries. rewrite find_matches_matched.
    unfold Glossary.matched. apply fmap_sublist, sublist_filter. }
  split; [done|]. apply sublist_length in H. by rewrite length_fmap in H.
Qed.

(** ** The glossary index *)

Section IndexFacts.

Import GlossaryIndex.
Variable tokenize : str → str.

Lemma dict_set_keys (d : Glossary.dict) k v :
  (dict_set d k v).*1 = if decide (k ∈ d.*1) then d.*1 else d.*1 ++ [k].
Proof.
  induction d as [|[k' v'] d IH].
  - rewrite decide_False; [done | apply not_elem_of_nil].
  - cbn [dict_set]. rewrite fmap_cons. cbn [fst].
    destruct (decide (k' = k)) as [->|Hne].
    + rewrite fmap_cons. cbn [fst]. rewrite decide_True; [done | by left].
    + rewrite fmap_cons, IH. cbn [fst]. destruct (decide (k ∈ d.*1)) as [Hin|Hin].
      * rewrite decide_True; [done | by right].
      * rewrite decide_False; [done|].
        apply not_elem_of_cons. by split; [congruence|].
Qed.

Lemma dict_set_NoDup (d : Glossary.dict) k v : NoDup d.*1 → NoDup (dict_set d k v).*1.
Proof.
  intros Hnd. rewrite dict_set_keys. destruct (decide (k ∈ d.*1)); [done|].
  apply NoDup_app. split; [done|]. split; [|apply NoDup_singleton].
  intros x Hx ->%list_elem_of_singleton. done.
Qed.

Lemma dict_get_set (d : Glossary.dict) k v k' :
  dict_get (dict_set d k v) k' = if decide (k = k') then Some v else dict_get d k'.
Proof.
  induction d as [|[k0 v0] d IH]; simpl.
  - by destruct (decide (k = k')).
  - destruct (decide (k0 = k)) as [->|Hne]; simpl.
    + by destruct (decide (k = k')).
    + rewrite IH. destruct (decide (k0 = k')) as [->|]; [|done].
      by rewrite decide_False.
Qed.

(** On a dict a key has the value of its item. *)
Lemma dict_get_item (d : Glossary.dict) k v :
  NoDup d.*1 → dict_get d k = Some v ↔ (k, v) ∈ d.
Proof.
  induction d as [|[k0 v0] d IH].
  - intros _. split; [done | by intros ?%elem_of_nil].
  - rewrite fmap_cons. intros [Hnotin Hnd]%NoDup_cons.
    rewrite elem_of_cons, <- (IH Hnd). cbn [dict_get fst] in *.
    destruct (decide (k0 = k)) as [->|Hne].
    + split; [intros [= ->]; by left|]. intros [[= ->]|H]; [done|].
      exfalso. apply Hnotin. apply IH in H; [|done].
      apply list_elem_of_fmap. by exists (k, v).
    + split; [by right|]. by intros [[= ? ?]|?].
Qed.

Lemma build_entries_snoc glos num word0 defs :
  build_entries tokenize (glos ++ [(num, (word0, defs))])
  = dict_set (build_entries tokenize glos) (index_key tokenize (headword word0))
      ((headword word0, num), defs).
Proof. unfold build_entries. by rewrite foldl_snoc. Qed.

Lemma build_entries_NoDup glos : NoDup (build_entries tokenize glos).*1.
Proof.
  induction glos as [|[num [word0 defs]] glos IH] using rev_ind.
  - apply NoDup_nil_2.
  - rewrite build_entries_snoc. by apply dict_set_NoDup.
Qed.

Lemma index_key_no_openbox word : OPENBOX ∉ index_key tokenize word.
Proof.
  unfold index_key.
  intros [H|H]%replace_elem; [|by apply list_elem_of_singleton in H|done].
  by apply (replace_char_char_gone _ OPENBOX SP) in H.
Qed.

Lemma build_entries_keys glos k :
  k ∈ (build_entries tokenize glos).*1 ↔
  ∃ num word0 defs, (num, (word0, defs)) ∈ glos ∧ k = index_key tokenize (headword word0).
Proof.
  induction glos as [|[num [word0 defs]] glos IH] using rev_ind.
  - split; [by intros ?%elem_of_nil | by intros (? & ? & ? & ?%elem_of_nil & _)].
  - rewrite build_entries_snoc, dict_set_keys.
    assert (Hold : k ∈ (build_entries tokenize glos).*1 ∨ k = index_key tokenize (headword word0)
              ↔ ∃ num' w' defs', (num', (w', defs')) ∈ glos ++ [(num, (word0, defs))]
                                 ∧ k = index_key tokenize (headword w')).
    { rewrite IH. split.
      - intros [(n & w & d & Hin & ->)| ->].
        + exists n, w, d. split; [|done]. apply elem_of_app. by left.
        + exists num, word0, defs. split; [|done]. apply elem_of_app. right. by left.
      - intros (n & w & d & [Hin|Hin]%elem_of_app & ->).
        + left. by exists n, w, d.
        + apply list_elem_of_singleton in Hin as [= -> -> ->]. by right. }
    rewrite <- Hold. destruct (decide _) as [Hin|Hin].
    + split; [by left|]. by intros [?| ->].
    + rewrite elem_of_app, list_elem_of_singleton. done.
Qed.

Lemma build_entries_length glos :
  (length (build_entries tokenize glos) ≤ length glos)%nat.
Proof.
  induction glos as [|[num [word0 defs]] glos IH] using rev_ind; [done|].
  rewrite build_entries_snoc, length_app. simpl.
  assert (H : ∀ (d : Glossary.dict) k v, (length (dict_set d k v) ≤ S (length d))%nat).
  { intros d k v. induction d as [|[k' v'] d IHd]; simpl; [lia|].
    destruct (decide (k' = k)); simpl; lia. }
  specialize (H (build_entries tokenize glos)
                (index_key tokenize (headword word0)) (headword word0, num, defs)). lia.
Qed.

Lemma mark_affixed_keeps (s : str) x : x ≠ SP → x ∈ s → x ∈ Segment.mark_affixed s.
Proof.
  intros Hx [i Hi]%list_elem_of_lookup.
  destruct (Forall2_lookup_l _ _ _ _ _ (mark_affixed_pointwise s) Hi) as (y & Hy & [->|[? _]]);
    [|done]. apply list_elem_of_lookup. by exists i.
Qed.

Lemma replace_char_char_there (s : str) c d : c ∈ s → d ∈ replace s [c] [d].
Proof.
  induction s as [|x s IH]; [by intros ?%elem_of_nil|].
  rewrite replace_char_cons. intros [->|Hin]%elem_of_cons.
  - rewrite decide_True by done. left.
  - apply elem_of_app. right. by apply IH.
Qed.

Lemma index_key_ogham word :
  UNDERSCORE ∈ tokenize word → OGHAM ∈ index_key tokenize word.
Proof.
  intros H. unfold index_key, Segment.segment_in_words.
  apply replace_keeps; [done| |].
  { by intros H'%list_elem_of_In; vm_compute in H'; intuition discriminate. }
  apply replace_keeps; [done| |].
  { by intros H'%list_elem_of_In; vm_compute in H'; intuition discriminate. }
  apply replace_char_char_there. by apply mark_affixed_keeps.
Qed.

End IndexFacts.

(** X8.  The index [__parse_json] builds is a dict: its keys are distinct,
    and they are the keys of the words of the glossary, each without U+2423;
    it has no more entries than the glossary has items, and a key has the
    value of its item. *)
Theorem build_entries_index
    (tokenize : str → str) (glos : list (str * (str * list (str * list str)))) :
  let entries := GlossaryIndex.build_entries tokenize glos in
  NoDup entries.*1 ∧
  (length entries ≤ length glos)%nat ∧
  (∀ k, k ∈ entries.*1 ↔
        ∃ num word0 defs, (num, (word0, defs)) ∈ glos ∧
          k = GlossaryIndex.index_key tokenize (GlossaryIndex.headword word0)) ∧
  Forall (λ k, OPENBOX ∉ k) entries.*1 ∧
  (∀ k v, GlossaryIndex.dict_get entries k = Some v ↔ (k, v) ∈ entries).
Proof.
  cbv zeta. split; [apply build_entries_NoDup|]. split; [apply build_entries_length|].
  split; [apply build_entries_keys|]. split.
  - apply Forall_forall. intros k (? & ? & ? & _ & ->)%build_entries_keys.
    apply index_key_no_openbox.
  - intros k v. apply dict_get_item, build_entries_NoDup.
Qed.

(** X9.  When two items of the glossary have the same key the later one
    wins: the index holds, under the key of an item, the word without its
    final shad, the identifier and the definitions of that item, provided no
    later item has the same key. *)
Theorem build_entries_last_wins
    (tokenize : str → str) (g1 g2 : list (str * (str * list (str * list str))))
    (num word0 : str) (defs : list (str * list str)) :
  Forall (λ it, GlossaryIndex.index_key tokenize (GlossaryIndex.headword it.2.1)
                ≠ GlossaryIndex.index_key tokenize (GlossaryIndex.headword word0)) g2 →
  GlossaryIndex.dict_get
    (GlossaryIndex.build_entries tokenize (g1 ++ [(num, (word0, defs))] ++ g2))
    (GlossaryIndex.index_key tokenize (GlossaryIndex.headword word0))
  = Some ((GlossaryIndex.headword word0, num), defs).
Proof.
  induction g2 as [|[n [w d]] g2 IH] using rev_ind; intros Hall.
  - rewrite app_nil_r, build_entries_snoc, dict_get_set. by rewrite decide_True.
  - apply Forall_app in Hall as [Hall Hlast]. inversion Hlast as [|? ? Hne _]; subst.
    rewrite !(assoc_L (++)), build_entries_snoc, dict_get_set.
    rewrite decide_False by done. rewrite <- (assoc_L (++)). by apply IH.
Qed.

Lemma build_entries_last_wins_witness :
  GlossaryIndex.dict_get
    (GlossaryIndex.build_entries (λ s, s)
       ([(py "1", (py "ab", []))] ++ [(py "2", (py "ab", []))] ++ [(py "3", (py "cd", []))]))
    (py "ab")
  = Some ((py "ab", py "2"), []).
Proof.
  apply (build_entries_last_wins (λ s, s) [(py "1", (py "ab", []))]
           [(py "3", (py "cd", []))] (py "2") (py "ab") []).
  apply Forall_cons_2; [discriminate | apply Forall_nil_2].
Defined.

(** X10.  Once [__parse_json] has returned, what it returned is what every
    later call returns: the pickle file is read and the glossary file is
    not, whether it has changed or is gone.  With neither file the call
    fails. *)
Theorem parse_json_cache_is_final
    (tokenize : str → str) (cache : option Glossary.dict)
    (glos : option (list (str * (str * list (str * list str)))))
    (entries : Glossary.dict) (cache' : option Glossary.dict) :
  GlossaryIndex.__parse_json tokenize cache glos = Some (entries, cache') →
  cache' = Some entries ∧
  (∀ glos', GlossaryIndex.__parse_json tokenize cache' glos' = Some (entries, cache')) ∧
  GlossaryIndex.__parse_json tokenize None None = None.
Proof.
  unfold GlossaryIndex.__parse_json.
  destruct cache as [e|]; [|destruct glos as [g|]; [|done]]; intros [= <- <-]; done.
Qed.

Lemma parse_json_cache_is_final_witness :
  GlossaryIndex.__parse_json (λ s, s)
    (Some (GlossaryIndex.build_entries (λ s, s) [(py "1", (py "ab", []))]))
    (Some [(py "2", (py "cd", []))])
  = Some (GlossaryIndex.build_entries (λ s, s) [(py "1", (py "ab", []))],
          Some (GlossaryIndex.build_entries (λ s, s) [(py "1", (py "ab", []))])).
Proof.
  refine (proj1 (proj2 (parse_json_cache_is_final (λ s, s) None
                          (Some [(py "1", (py "ab", []))]) _ _ _)) _).
  reflexivity.
Defined.

(** X11.  A headword in which the tokenizer leaves an underscore (a space
    inside a word) is filed under a key with U+1680, which the lines, once
    normalized, never hold: no line matches it. *)
Theorem index_key_with_space_never_matches
    (tokenize : str → str) (word segment : str) :
  UNDERSCORE ∈ tokenize word →
  (OGHAM ∈ GlossaryIndex.index_key tokenize word) ∧
  Glossary.matches (Glossary.normalize segment) (GlossaryIndex.index_key tokenize word)
  = false.
Proof.
  intros H%index_key_ogham. split; [done|].
  apply not_true_is_false. intros [_ Hin]%matches_chars.
  by apply (proj1 (normalize_no_markers segment)), Hin.
Qed.

Lemma index_key_with_space_never_matches_witness :
  Glossary.matches (Glossary.normalize (py "the a" ++ [OGHAM] ++ py "b sky"))
    (GlossaryIndex.index_key (λ s, s) (py "a_b")) = false.
Proof.
  refine (proj2 (index_key_with_space_never_matches (λ s, s) (py "a_b")
                   (py "the a" ++ [OGHAM] ++ py "b sky") _)).
  right. left.
Defined.

(** ** More on anchors and resynchronization *)

Section ResyncMore.

Import Transfer.

Lemma lstrip_app_clean (u v : str) : starts_clean v → lstrip (u ++ v) = lstrip u ++ v.
Proof.
  intros Hv. induction u as [|x u IH]; simpl; [by apply starts_clean_lstrip|].
  by destruct (isspace x).
Qed.

Lemma lstrip_lstrip_app (u v : str) : lstrip (lstrip u ++ v) = lstrip (u ++ v).
Proof.
  induction u as [|x u IH]; simpl; [done|].
  destruct (isspace x) eqn:E; [done|]. simpl. by rewrite E.
Qed.

Lemma lstrip_idemp (u : str) : lstrip (lstrip u) = lstrip u.
Proof. rewrite <- (app_nil_r (lstrip u)), lstrip_lstrip_app. by rewrite !app_nil_r. Qed.

(** Trimming a line that ends with an anchor trims its text on the left
    only. *)
Lemma strip_anchored_line (t rest : str) :
  strip (t ++ EM :: rest ++ [EM]) = lstrip t ++ EM :: rest ++ [EM].
Proof.
  unfold strip. rewrite lstrip_app_clean by done.
  apply ends_clean_rstrip.
  rewrite (cons_middle EM (lstrip t)), !(assoc_L (++)). by apply ends_clean_snoc.
Qed.

Lemma count_lstrip_EM (t : str) : EM ∉ t → EM ∉ lstrip t.
Proof.
  intros H Hin. apply H. destruct (lstrip_suffix t) as [w E]. rewrite E.
  apply elem_of_app. by right.
Qed.

(** A line with one anchor gives its text, trimmed on the left, and the
    anchor. *)
Lemma entry_of_line_one (t a : str) :
  EM ∉ t → EM ∉ a → entry_of_line (t ++ [EM] ++ a ++ [EM]) = Some (lstrip t, a).
Proof.
  intros Ht Ha. unfold entry_of_line.
  change (t ++ [EM] ++ a ++ [EM]) with (t ++ EM :: a ++ [EM]).
  rewrite strip_anchored_line.
  apply count_lstrip_EM in Ht as Hl. apply count_zero in Hl as Hl0, Ha as Ha0.
  rewrite remove_extra_uuid_few.
  2:{ rewrite count_app. simpl. rewrite count_app. simpl. lia. }
  rewrite (cons_middle EM (lstrip t)), !(assoc_L (++)), slice_to_minus_one.
  rewrite <- (assoc_L (++)). simpl.
  by rewrite split_app, split_no_occurrence.
Qed.

(** With an earlier anchor in the line, the text is what is around it and
    the anchor is the last one. *)
Lemma entry_of_line_two (t old t2 new : str) :
  EM ∉ t → EM ∉ old → EM ∉ t2 → EM ∉ new →
  entry_of_line (t ++ [EM] ++ old ++ [EM] ++ t2 ++ [EM] ++ new ++ [EM])
  = Some (lstrip (t ++ t2), new).
Proof.
  intros Ht Hold Ht2 Hnew. unfold entry_of_line.
  replace (t ++ [EM] ++ old ++ [EM] ++ t2 ++ [EM] ++ new ++ [EM])
    with (t ++ EM :: (old ++ EM :: t2 ++ EM :: new) ++ [EM])
    by (by repeat (progress (simpl; rewrite <- ?app_assoc))).
  rewrite strip_anchored_line.
  replace (lstrip t ++ EM :: (old ++ EM :: t2 ++ EM :: new) ++ [EM])
    with (lstrip t ++ EM :: old ++ EM :: (t2 ++ EM :: new ++ [EM]))
    by (by repeat (progress (simpl; rewrite <- ?app_assoc))).
  apply count_lstrip_EM in Ht as Hl.
  rewrite remove_extra_uuid_cut; [|done..|].
  2:{ rewrite count_app. simpl. lia. }
  rewrite (assoc_L (++) (lstrip t) t2).
  rewrite strip_anchored_line, lstrip_lstrip_app.
  rewrite (cons_middle EM (lstrip (t ++ t2))), !(assoc_L (++)), slice_to_minus_one.
  rewrite <- (assoc_L (++)). simpl.
  rewrite split_app, split_no_occurrence; [done..|].
  intros Hin. destruct (lstrip_suffix (t ++ t2)) as [w E].
  assert (EM ∈ t ++ t2) as [?|?]%elem_of_app; [|done..].
  rewrite E. apply elem_of_app. by right.
Qed.

Lemma assigned_anchored l l' : assigned l l' → anchored l' = true.
Proof.
  unfold assigned. destruct (anchored l) eqn:E; [by intros ->|].
  intros (id & _ & ->). destruct (fresh_line_clean l id) as (? & ? & ?).
  unfold anchored. by rewrite strip_clean.
Qed.

Lemma missing_none lines :
  Forall (λ l, anchored l = false) lines → missing lines = length lines.
Proof.
  intros H. unfold missing. by rewrite filter_all.
Qed.

Lemma no_delimiter_unanchored (l : str) : EM ∉ l → anchored l = false.
Proof.
  intros H. unfold anchored. apply not_true_is_false.
  intros [k E]%endswith_suffix. apply (strip_not_elem EM l H).
  rewrite E. apply elem_of_app. right. left.
Qed.

End ResyncMore.

(** X12.  After [add_missing_uuids] the document has as many lines as
    before, and every line of it ends with the delimiter. *)
Theorem add_missing_uuids_all_anchored (urandom : nat → N) (dump : str) (n : nat) :
  length (split NL (strip (Transfer.add_missing_uuids urandom dump n).1))
  = length (split NL (strip dump)) ∧
  Forall (λ l, Transfer.anchored l = true)
    (split NL (strip (Transfer.add_missing_uuids urandom dump n).1)).
Proof.
  rewrite add_missing_uuids_lines.
  pose proof (add_missing_uuids_loop_assigned urandom (split NL (strip dump)) n) as HA.
  split; [symmetry; by eapply Forall2_length|].
  induction HA as [|l l' ls ls' Hl _ IH]; [done|].
  constructor; [by eapply assigned_anchored | done].
Qed.

(** X13.  A line made of a text, a delimiter, an anchor and a delimiter, as
    [extract_entries] writes a unit, is read back by the loop of
    [generate_entries] as the text, trimmed on the left, and the anchor; the
    line [add_missing_uuids] writes, whose text is trimmed, is read back as
    that text and the anchor. *)
Theorem entry_of_line_round_trip (text anchor : str) :
  EM ∉ text → EM ∉ anchor →
  Transfer.entry_of_line (text ++ ([EM] ++ anchor ++ [EM])) = Some (lstrip text, anchor) ∧
  Transfer.entry_of_line (strip text ++ [EM] ++ anchor ++ [EM]) = Some (strip text, anchor).
Proof.
  intros Ht Ha. split; [by apply entry_of_line_one|].
  rewrite entry_of_line_one; [|by apply strip_not_elem | done].
  do 2 f_equal. destruct (decide (strip text = [])) as [->|Hne]; [done|].
  by apply starts_clean_lstrip, strip_starts_clean.
Qed.

Lemma entry_of_line_round_trip_witness :
  Transfer.entry_of_line (py " ab c " ++ ([EM] ++ py "id" ++ [EM]))
  = Some (py "ab c ", py "id").
Proof.
  refine (proj1 (entry_of_line_round_trip (py " ab c ") (py "id") _ _));
    by intros H%list_elem_of_In; vm_compute in H; intuition discriminate.
Defined.

(** X14.  When a line carries an earlier anchor besides its last one, two
    stacked anchors or an anchor left in the middle of the text, the pair
    read from it has the last anchor, and as text what is around the earlier
    one. *)
Theorem entry_of_line_last_anchor_wins (t old t2 new : str) :
  EM ∉ t → EM ∉ old → EM ∉ t2 → EM ∉ new →
  Transfer.entry_of_line (t ++ [EM] ++ old ++ [EM] ++ t2 ++ [EM] ++ new ++ [EM])
  = Some (lstrip (t ++ t2), new) ∧
  Transfer.remove_extra_uuid (t ++ [EM] ++ old ++ [EM] ++ t2 ++ [EM] ++ new ++ [EM])
  = strip (t ++ t2 ++ [EM] ++ new ++ [EM]).
Proof.
  intros Ht Hold Ht2 Hnew. split; [by apply entry_of_line_two|].
  apply (remove_extra_uuid_cut t old (t2 ++ [EM] ++ new ++ [EM])); [done..|].
  rewrite count_app. simpl. lia.
Qed.

Lemma entry_of_line_last_anchor_wins_witness :
  Transfer.entry_of_line
    (py "ab" ++ [EM] ++ py "old" ++ [EM] ++ py " cd" ++ [EM] ++ py "new" ++ [EM])
  = Some (py "ab cd", py "new").
Proof.
  refine (proj1 (entry_of_line_last_anchor_wins (py "ab") (py "old") (py " cd") (py "new")
                   _ _ _ _));
    by intros H%list_elem_of_In; vm_compute in H; intuition discriminate.
Defined.

Section ResyncRuns.

Import Transfer.
Variable transfer : str → list (str * str) → str → str → str.
Variable urandom : nat → N.

(** The lines the loop reads give the pairs [f] computes for them. *)
Lemma mapM_entry_of_line {A} (f : A → str * str) (g : A → str) (l : list A) :
  (∀ x, x ∈ l → entry_of_line (g x) = Some (f x)) →
  mapM entry_of_line (g <$> l) = Some (f <$> l).
Proof.
  intros H. apply mapM_Some_2, Forall2_fmap, Forall_Forall2_diag, Forall_forall.
  intros x Hx. by apply H.
Qed.

(** On lines without delimiter the loop of [add_missing_uuids] gives the
    i-th line the i-th draw. *)
Lemma add_missing_uuids_loop_fresh (lines : list str) n :
  Forall (λ l, EM ∉ l) lines →
  add_missing_uuids_loop urandom lines n
  = (imap (λ i l, strip l ++ [EM] ++ Uuid.hex32 (Uuid.uuid4_int (urandom (n + i))) ++ [EM])
       lines, (n + length lines)%nat).
Proof.
  intros H. revert n. induction H as [|l lines Hl _ IH]; intros n.
  - simpl. unfold mret, gen_ret. f_equal. lia.
  - rewrite add_missing_uuids_loop_cons, no_delimiter_unanchored by done.
    rewrite IH. cbn [imap length]. rewrite Nat.add_0_r. f_equal; [|lia]. f_equal.
    apply imap_ext. intros i x _. unfold compose.
    by replace (S n + i)%nat with (n + S i)%nat by lia.
Qed.

Lemma mapM_entry_of_line_imap (F : nat → str → str) (G : nat → str → str * str)
    (l : list str) :
  (∀ i x, l !! i = Some x → entry_of_line (F i x) = Some (G i x)) →
  mapM entry_of_line (imap F l) = Some (imap G l).
Proof.
  revert F G. induction l as [|x l IH]; intros F G H; [done|].
  cbn [imap mapM]. rewrite (H 0%nat x eq_refl).
  rewrite (IH (F ∘ S) (G ∘ S)); [done|]. intros i y Hy. by apply (H (S i)).
Qed.

Lemma generate_entries_state dump po n :
  (generate_entries transfer urandom dump po n).2
  = (add_missing_uuids_loop urandom
       (split NL (strip (resync_input transfer dump po))) n).2.
Proof.
  unfold generate_entries, resync_input, add_missing_uuids, mbind, gen_bind, mret, gen_ret.
  by destruct (add_missing_uuids_loop urandom _ n).
Qed.

End ResyncRuns.

(** X15.  A first run over raw text that has no delimiter gives one pair
    per line of the trimmed text, in order: the trimmed line, and the 32
    hexadecimal digits made from the draw of the same rank.  An empty text
    gives one pair, with the empty text. *)
Theorem generate_entries_first_run_pairs
    (transfer : str → list (str * str) → str → str → str) (urandom : nat → N)
    (dump : str) (n : nat) :
  EM ∉ dump →
  Transfer.generate_entries transfer urandom dump None n
  = (Some (imap (λ i l, (strip l, Uuid.hex32 (Uuid.uuid4_int (urandom (n + i)%nat))))
             (split NL (strip dump))),
     (n + length (split NL (strip dump)))%nat).
Proof.
  intros H.
  assert (Hall : Forall (λ l, EM ∉ l) (split NL (strip dump)))
    by by apply split_not_elem, strip_not_elem.
  rewrite (surjective_pairing (Transfer.generate_entries transfer urandom dump None n)).
  rewrite generate_entries_unfold, generate_entries_state, add_missing_uuids_lines.
  unfold resync_input. rewrite add_missing_uuids_loop_fresh by done.
  cbn [fst snd]. f_equal.
  apply mapM_entry_of_line_imap. intros i x Hx.
  rewrite Forall_forall in Hall.
  assert (EM ∉ x) by (apply Hall, list_elem_of_lookup; by exists i).
  rewrite entry_of_line_one; [|by apply strip_not_elem | apply hex32_no_EM].
  do 2 f_equal. destruct (decide (strip x = [])) as [->|Hne]; [done|].
  by apply starts_clean_lstrip, strip_starts_clean.
Qed.

Lemma generate_entries_first_run_pairs_witness :
  Transfer.generate_entries transfer_unmarked zero_source [] None 0%nat
  = (Some [([], Uuid.hex32 (Uuid.uuid4_int 0))], 1%nat).
Proof.
  apply (generate_entries_first_run_pairs transfer_unmarked zero_source [] 0%nat).
  apply not_elem_of_nil.
Defined.

Section Unedited.

Import Transfer.

(** The synthetic line of a unit. *)
Lemma po_dump_lines (f : POFile) :
  po_dump f = join [NL] ((λ p, p.1 ++ ([EM] ++ format_ctxt p.2 ++ [EM])) <$> po_entries f).
Proof. unfold po_dump. f_equal. apply list_fmap_ext. by intros i [a b] _. Qed.

Lemma synthetic_line_anchored (a c : str) : anchored (a ++ ([EM] ++ c ++ [EM])) = true.
Proof.
  unfold anchored. change (a ++ [EM] ++ c ++ [EM]) with (a ++ EM :: c ++ [EM]).
  rewrite strip_anchored_line.
  rewrite (cons_middle EM (lstrip a)), !(assoc_L (++)), endswith_snoc.
  by apply bool_decide_eq_true.
Qed.

Lemma synthetic_line_clean (a c : str) :
  lstrip a = a →
  starts_clean (a ++ ([EM] ++ c ++ [EM])) ∧ ends_clean (a ++ ([EM] ++ c ++ [EM])).
Proof.
  intros Ha. split.
  - destruct (decide (a = [])) as [->|Hne]; [done|].
    apply starts_clean_app. rewrite <- Ha. apply lstrip_clean. by rewrite Ha.
  - rewrite !(assoc_L (++)). by apply ends_clean_snoc.
Qed.

End Unedited.

(** X16.  Resynchronization keeps unedited lines.  When the alignment
    primitive gives back the old document with its anchors (the new text is
    the old one), and the texts and contexts of the persisted units have no
    delimiter, no newline and no white space at their left, [generate_entries]
    draws no identifier and returns the reconstructed text and the context
    of every unit, in file order. *)
Theorem generate_entries_unedited
    (transfer : str → list (str * str) → str → str → str) (urandom : nat → N)
    (dump : str) (f : POFile) (n : nat) :
  f ≠ [] →
  Forall (λ p, (EM ∉ p.1) ∧ (NL ∉ p.1) ∧ lstrip p.1 = p.1 ∧
               (EM ∉ format_ctxt p.2) ∧ (NL ∉ format_ctxt p.2))
    (Transfer.po_entries f) →
  transfer (po_dump f) Transfer.uuid_pattern dump (py "txt") = po_dump f →
  Transfer.generate_entries transfer urandom dump (Some f) n
  = (Some ((λ p, (p.1, format_ctxt p.2)) <$> Transfer.po_entries f), n).
Proof.
  intros Hne Hall Htr.
  set (line := λ p : str * option str, p.1 ++ ([EM] ++ format_ctxt p.2 ++ [EM])).
  assert (Hdoc : resync_input transfer dump (Some f) = join [NL] (line <$> Transfer.po_entries f)).
  { unfold resync_input, Transfer.extract_entries. fold (po_dump f).
    by rewrite Htr, po_dump_lines. }
  assert (Hne' : line <$> Transfer.po_entries f ≠ []).
  { unfold Transfer.po_entries. by destruct f. }
  assert (Hstrip : strip (join [NL] (line <$> Transfer.po_entries f))
                   = join [NL] (line <$> Transfer.po_entries f)).
  { apply strip_clean.
    - destruct (head (line <$> Transfer.po_entries f)) as [l|] eqn:Hh;
        [|by apply head_None in Hh].
      apply join_starts_clean with l; [done|].
      apply head_Some_elem_of, list_elem_of_fmap in Hh as (p & -> & Hp).
      rewrite Forall_forall in Hall. destruct (Hall p Hp) as (_ & _ & Hl & _).
      by apply synthetic_line_clean.
    - destruct (last (line <$> Transfer.po_entries f)) as [l|] eqn:Hh;
        [|by apply last_None in Hh].
      apply join_ends_clean with l; [done|].
      apply last_Some_elem_of, list_elem_of_fmap in Hh as (p & -> & Hp).
      rewrite Forall_forall in Hall. destruct (Hall p Hp) as (_ & _ & Hl & _).
      by apply synthetic_line_clean. }
  assert (Hsplit : split NL (join [NL] (line <$> Transfer.po_entries f))
                   = line <$> Transfer.po_entries f).
  { apply split_join; [done|]. apply Forall_fmap. eapply Forall_impl; [exact Hall|].
    intros p (_ & Ha & _ & _ & Hc). unfold line.
    apply not_elem_of_app. split; [done|]. apply not_elem_of_app. split.
    { apply not_elem_of_cons. split; [done | apply not_elem_of_nil]. }
    apply not_elem_of_app. split; [done|].
    apply not_elem_of_cons. split; [done | apply not_elem_of_nil]. }
  assert (Hloop : Transfer.add_missing_uuids_loop urandom (line <$> Transfer.po_entries f) n
                  = (line <$> Transfer.po_entries f, n)).
  { apply add_missing_uuids_loop_anchored, Forall_fmap, Forall_forall.
    intros p _. apply synthetic_line_anchored. }
  rewrite (surjective_pairing (Transfer.generate_entries transfer urandom dump (Some f) n)).
  rewrite generate_entries_unfold, generate_entries_state, add_missing_uuids_lines.
  rewrite Hdoc, Hstrip, Hsplit, Hloop. cbn [fst snd]. f_equal.
  apply mapM_entry_of_line. intros p Hp.
  rewrite Forall_forall in Hall. destruct (Hall p Hp) as (Ha & _ & Hl & Hc & _).
  unfold line. rewrite entry_of_line_one by done. by rewrite Hl.
Qed.

Lemma generate_entries_unedited_witness :
  Transfer.generate_entries (λ source _ _ _, source) zero_source (py "ab")
    (Some [ {| msgid := py "a b"; msgstr := py "x"; msgctxt := Some (py "id");
               comment := None; tcomment := None |} ]) 0%nat
  = (Some [(py "ab", py "id")], 0%nat).
Proof.
  apply (generate_entries_unedited (λ source _ _ _, source) zero_source (py "ab")
           [ {| msgid := py "a b"; msgstr := py "x"; msgctxt := Some (py "id");
                comment := None; tcomment := None |} ] 0%nat).
  - discriminate.
  - apply Forall_cons_2; [|apply Forall_nil_2].
    repeat split; try reflexivity;
      by intros H%list_elem_of_In; vm_compute in H; intuition discriminate.
  - reflexivity.
Defined.

(** ** Units from lines *)

Section Units.

Import PoLines.
Variable transfer : str → list (str * str) → str → str → str.
Variable urandom : nat → N.
Variable tokenize : str → str.
Variable bold : str → str.

(** The loop of [lines_to_entries] appends one unit per line. *)
Lemma foldl_line_to_entry glossary (file : POFile) (lines : list (str * str)) :
  foldl (line_to_entry tokenize bold glossary) file lines
  = file ++ (unit_of_pair tokenize bold glossary <$> lines).
Proof.
  revert file. induction lines as [|[line ctxt] lines IH]; intros file.
  - by rewrite app_nil_r.
  - cbn [foldl]. rewrite IH. unfold line_to_entry, PoA._create_entry.
    rewrite fmap_cons, <- app_assoc. done.
Qed.

Lemma lines_to_entries_result glossary (file : POFile) dump po n :
  lines_to_entries transfer urandom tokenize bold glossary file dump po n
  = ((λ lines, file ++ (unit_of_pair tokenize bold glossary <$> lines))
       <$> (Transfer.generate_entries transfer urandom dump po n).1,
     (Transfer.generate_entries transfer urandom dump po n).2).
Proof.
  unfold lines_to_entries, mbind, gen_bind, mret, gen_ret.
  destruct (Transfer.generate_entries transfer urandom dump po n) as [[lines|] n'];
    cbn [fst snd fmap option_fmap option_map]; [|done].
  by rewrite foldl_line_to_entry.
Qed.

End Units.

(** X17.  [lines_to_entries] keeps the entries the file has and appends one
    unit per pair of [generate_entries], in order: its msgid is the
    segmented text without notes, its context the anchor, its translation
    empty.  When [generate_entries] fails so does [lines_to_entries]. *)
Theorem lines_to_entries_units
    (transfer : str → list (str * str) → str → str → str) (urandom : nat → N)
    (tokenize bold : str → str) (glossary : Glossary.dict) (file : POFile)
    (dump : str) (po : option POFile) (n : nat) :
  (PoLines.lines_to_entries transfer urandom tokenize bold glossary file dump po n).2
  = (Transfer.generate_entries transfer urandom dump po n).2 ∧
  match (Transfer.generate_entries transfer urandom dump po n).1 with
  | None =>
      (PoLines.lines_to_entries transfer urandom tokenize bold glossary file dump po n).1
      = None
  | Some lines =>
      ∃ new,
        (PoLines.lines_to_entries transfer urandom tokenize bold glossary file dump po n).1
        = Some (file ++ new) ∧
        length new = length lines ∧
        msgctxt <$> new = Some <$> lines.*2 ∧
        msgid <$> new
        = (λ l, Segment.segment_in_words tokenize (PoLines.strip_notes l.1)) <$> lines ∧
        Forall (λ e, msgstr e = [] ∧ comment e = None) new
  end.
Proof.
  rewrite lines_to_entries_result. cbn [fst snd]. split; [done|].
  destruct (Transfer.generate_entries transfer urandom dump po n).1 as [lines|]; [|done].
  eexists. split; [done|].
  rewrite length_fmap, <- !list_fmap_compose. repeat split; try done.
  by apply Forall_fmap, Forall_forall.
Qed.





(** ** More on the exports *)

Section ExportsMore.

Lemma replace_from_absent (old new s : str) :
  contains old s = false → replace_from old new s 0 = s.
Proof.
  induction s as [|c s IH]; [done|]. cbn [contains replace_from].
  intros [E1 E2]%orb_false_iff. rewrite E1. by rewrite IH.
Qed.

(** Where the old text does not occur nothing is replaced. *)
Lemma replace_absent (s old new : str) :
  old ≠ [] → contains old s = false → replace s old new = s.
Proof. destruct old; [done|]. intros _. apply replace_from_absent. Qed.

(** A replacement by a text that is not longer does not lengthen. *)
Lemma replace_from_length (old new s : str) k :
  old ≠ [] → (length new ≤ length old)%nat →
  (length (replace_from old new s k) + k `min` length s ≤ length s)%nat.
Proof.
  intros Hne Hlen. revert k. induction s as [|c s IH]; intros k; [simpl; lia|].
  destruct k as [|k]; cbn [replace_from length].
  - destruct (startswith (c :: s) old) eqn:E.
    + apply startswith_length in E. cbn [length] in E.
      specialize (IH (length old - 1)%nat). rewrite length_app.
      destruct old; [done|]. cbn [length] in *. lia.
    + specialize (IH 0%nat). cbn [length]. lia.
  - specialize (IH k). lia.
Qed.

Lemma export_text_no_markers entry :
  (OPENBOX ∉ PoB.export_text entry) ∧ (OGHAM ∉ PoB.export_text entry).
Proof.
  unfold PoB.export_text. split.
  - intros [H|H]%replace_elem; [|by apply list_elem_of_singleton in H|done].
    apply replace_elem in H as [H|H]; [|by apply list_elem_of_singleton in H|done].
    by apply replace_char_delete_gone in H.
  - intros [H|H]%replace_elem; [|by apply list_elem_of_singleton in H|done].
    by apply (replace_char_char_gone _ OGHAM SP) in H.
Qed.

Lemma txt_names_differ (stem : str) : stem ++ py "_only.txt" ≠ stem ++ py ".txt".
Proof. by intros ?%app_inv_head. Qed.

End ExportsMore.

(** X19.  The text of a unit in the exports holds no affix marker U+2423,
    no U+1680 and no newline, so that every unit takes one row in the line
    column; the rows of the line-and-translation export are, for
    translations without newline, twice the units. *)
Theorem export_text_clean (file : POFile) :
  Forall (λ e, (OPENBOX ∉ PoB.export_text e) ∧ (OGHAM ∉ PoB.export_text e)
               ∧ (NL ∉ PoB.export_text e)) file ∧
  (PoB.entries_of file).*1 = PoB.export_text <$> file ∧
  (file ≠ [] → Forall (λ e, NL ∉ msgstr e) file →
   length (split NL (PoB.format_entries file).1.1) = (2 * length file)%nat).
Proof.
  split; [|split].
  - apply Forall_forall. intros e _.
    destruct (export_text_no_markers e). split; [done|]. split; [done|].
    apply export_text_no_NL.
  - unfold PoB.entries_of. by rewrite <- list_fmap_compose.
  - intros Hne Hall.
    assert (E : split NL (PoB.format_entries file).1.1
                = (file ≫= λ e, [PoB.export_text e; [TAB] ++ msgstr e])).
    { unfold PoB.format_entries, PoB.entries_of. cbn [fst].
      rewrite <- list_fmap_compose.
      rewrite <- (join_rows [NL] PoB.export_text (λ e, [TAB] ++ msgstr e)).
      apply split_join; [by destruct file|].
      apply Forall_bind. eapply Forall_impl; [exact Hall|]. intros e He.
      simpl in He. apply Forall_cons_2; [apply export_text_no_NL|].
      apply Forall_cons_2; [|apply Forall_nil_2]. by apply not_elem_of_cons. }
    rewrite E. clear. induction file as [|e file IH]; [done|].
    rewrite bind_cons, length_app, IH. simpl. lia.
Qed.

(** X20.  [write_txt] always writes the line-and-translation export and the
    translations, next to the PO file, in that order; when there is no
    paragraph copy yet it creates it with the translation-and-line export.
    (The input file is not in [copy_folder].) *)
Theorem write_txt_outputs
    (transfer : str → list (str * str) → str → str → str) (self : PoB.Po) (s : fs) :
  PoB.parent self ≠ PoB.copy_folder →
  let s' := PoB.write_txt transfer self s in
  files s' !! PoB.bitext_path self = Some (PoB.format_entries (PoB.file self)).1.1 ∧
  files s' !! PoB.translation_path self = Some (PoB.format_entries (PoB.file self)).1.2 ∧
  (∃ rest, written s' = written s ++ [PoB.bitext_path self; PoB.translation_path self]
                          ++ rest ∧
           (rest = [] ∨ rest = [PoB.pars_path self])) ∧
  (files s !! PoB.pars_path self = None →
   files s' !! PoB.pars_path self = Some (PoB.format_entries (PoB.file self)).2 ∧
   written s' = written s ++ [PoB.bitext_path self; PoB.translation_path self;
                              PoB.pars_path self]).
Proof.
  intros Hdir. cbv zeta.
  assert (Hbt : PoB.translation_path self ≠ PoB.bitext_path self).
  { intros E%(f_equal snd). by apply txt_names_differ in E. }
  assert (Hpb : PoB.pars_path self ≠ PoB.bitext_path self).
  { intros E%(f_equal fst). by apply Hdir. }
  assert (Hpt : PoB.pars_path self ≠ PoB.translation_path self).
  { intros E%(f_equal fst). by apply Hdir. }
  unfold PoB.write_txt.
  destruct (PoB.format_entries (PoB.file self)) as [[orig_trans trans] pars_trans].
  cbn [fst snd].
  set (s2 := write_text (PoB.translation_path self) trans
               (write_text (PoB.bitext_path self) orig_trans s)).
  assert (H2b : files s2 !! PoB.bitext_path self = Some orig_trans).
  { unfold s2, write_text. cbn [files].
    by rewrite lookup_insert_ne, lookup_insert_eq. }
  assert (H2t : files s2 !! PoB.translation_path self = Some trans).
  { unfold s2, write_text. cbn [files]. by rewrite lookup_insert_eq. }
  assert (H2p : files s2 !! PoB.pars_path self = files s !! PoB.pars_path self).
  { unfold s2, write_text. cbn [files]. by rewrite !lookup_insert_ne. }
  assert (H2w : written s2 = written s ++ [PoB.bitext_path self; PoB.translation_path self]).
  { unfold s2, write_text. cbn [written]. by rewrite <- app_assoc. }
  unfold read_text. rewrite H2p.
  destruct (files s !! PoB.pars_path self) as [pars_old|] eqn:Hold.
  - destruct (decide _).
    + unfold write_text. cbn [files written].
      rewrite !lookup_insert_ne by done. rewrite H2w, <- app_assoc.
      split; [done|]. split; [done|]. split; [|done].
      exists [PoB.pars_path self]. split; [done | by right].
    + rewrite H2w. split; [done|]. split; [done|]. split; [|done].
      exists []. split; [by rewrite app_nil_r | by left].
  - unfold write_text. cbn [files written].
    rewrite !lookup_insert_ne by done. rewrite lookup_insert_eq, H2w, <- app_assoc.
    split; [done|]. split; [done|]. split; [|done].
    exists [PoB.pars_path self]. split; [done | by right].
Qed.

Lemma write_txt_outputs_witness :
  files (PoB.write_txt transfer_unmarked
           {| PoB.parent := PoB.folder; PoB.stem := py "ch1";
              PoB.file := [ {| msgid := py "a b"; msgstr := py "x"; msgctxt := None;
                               comment := None; tcomment := None |} ] |}
           {| files := ∅; written := [] |})
    !! (PoB.copy_folder, py "ch1.txt")
  = Some (py "x" ++ [NL; TAB] ++ py "ab").
Proof.
  refine (proj1 (proj2 (proj2 (proj2 (write_txt_outputs transfer_unmarked
           {| PoB.parent := PoB.folder; PoB.stem := py "ch1";
              PoB.file := [ {| msgid := py "a b"; msgstr := py "x"; msgctxt := None;
                               comment := None; tcomment := None |} ] |}
           {| files := ∅; written := [] |} _))) _)).
  - discriminate.
  - apply lookup_empty.
Defined.

(** X21.  [write_txt] touches no other file: the content of every path
    other than the three it computes is as before. *)
Theorem write_txt_frame
    (transfer : str → list (str * str) → str → str → str) (self : PoB.Po) (s : fs)
    (p : path) :
  p ≠ PoB.bitext_path self → p ≠ PoB.translation_path self → p ≠ PoB.pars_path self →
  files (PoB.write_txt transfer self s) !! p = files s !! p.
Proof.
  intros Hb Ht Hp. unfold PoB.write_txt.
  destruct (PoB.format_entries (PoB.file self)) as [[orig_trans trans] pars_trans].
  destruct (read_text _ _) as [pars_old|]; [destruct (decide _)|];
    unfold write_text; cbn [files]; by rewrite !lookup_insert_ne.
Qed.

Lemma write_txt_frame_witness :
  files (PoB.write_txt transfer_unmarked
           {| PoB.parent := PoB.folder; PoB.stem := py "ch1"; PoB.file := [] |}
           {| files := {[ (PoB.folder, py "ch1.po") := py "po" ]}; written := [] |})
    !! (PoB.folder, py "ch1.po")
  = Some (py "po").
Proof.
  refine (eq_trans (write_txt_frame transfer_unmarked
           {| PoB.parent := PoB.folder; PoB.stem := py "ch1"; PoB.file := [] |}
           {| files := {[ (PoB.folder, py "ch1.po") := py "po" ]}; written := [] |}
           (PoB.folder, py "ch1.po") _ _ _) _).
  - discriminate.
  - discriminate.
  - discriminate.
  - apply lookup_singleton_eq.
Defined.

(** X22.  [_update_pars] returns what the alignment primitive returns when
    that has no four newlines in a row, and never a longer text. *)
Theorem update_pars_bounds
    (transfer : str → list (str * str) → str → str → str) (source target : str) :
  let transferred := transfer source PoB.pars_pattern target (py "txt") in
  (length (PoB._update_pars transfer source target) ≤ length transferred)%nat ∧
  (contains [NL; NL; NL; NL] transferred = false →
   PoB._update_pars transfer source target = transferred).
Proof.
  cbv zeta. unfold PoB._update_pars. split.
  - pose proof (replace_from_length [NL; NL; NL; NL] [NL; NL; NL]
                  (transfer source PoB.pars_pattern target (py "txt")) 0) as H.
    unfold replace. simpl in H. specialize (H ltac:(done) ltac:(lia)). lia.
  - by apply replace_absent.
Qed.

(** ** The comment of a unit *)

Section Comments.


End Comments.


